(** * dmvr.builders: parser, processor and filter builders

    A shallow embedding of [dmvr/builders.py].  Python objects that are
    mutated in place and shared (the builder instance, its list of function
    descriptions, the tuple captured by a built processor, the per-call state
    dictionary) live in an object store; methods are computations in a
    state-and-exception monad over that store. *)

From stdpp Require Import gmap strings list fin_maps pretty.

Open Scope string_scope.
Open Scope list_scope.

(** ** Phases of the data processing graph ([class Phase(enum.Enum)]) *)

Inductive Phase := READ | PARSE | SAMPLE | DECODE | PREPROCESS | POSTPROCESS.

(** [enum.auto()] numbers the members from 1 in declaration order. *)
Definition Phase_value (p : Phase) : nat :=
  match p with
  | READ => 1 | PARSE => 2 | SAMPLE => 3
  | DECODE => 4 | PREPROCESS => 5 | POSTPROCESS => 6
  end.

Definition Phase_of_value (n : nat) : option Phase :=
  match n with
  | 1 => Some READ | 2 => Some PARSE | 3 => Some SAMPLE
  | 4 => Some DECODE | 5 => Some PREPROCESS | 6 => Some POSTPROCESS
  | _ => None
  end.

(** Iterating over the enum class yields the members in declaration order. *)
Definition Phase_members : list Phase :=
  [READ; PARSE; SAMPLE; DECODE; PREPROCESS; POSTPROCESS].

#[global] Instance Phase_eq_dec : EqDecision Phase.
Proof. solve_decision. Defined.

#[global] Program Instance Phase_countable : Countable Phase :=
  inj_countable Phase_value Phase_of_value _.
Next Obligation. by intros []. Qed.

(** ** Exceptions, results and the state-and-exception monad *)

Module Py.

(** Keys of the dictionaries of this module, as carried by a [KeyError]. *)
Inductive dict_key :=
| StrKey (s : string)
| TupleKey (s : string) (b : bool)
| PhaseKey (p : Phase).

Inductive exn :=
| ValueError (msg : string)
| KeyError (key : dict_key)
| IndexError
| TypeError
| Exception (msg : string).

Inductive result (A : Type) :=
| Return (a : A)
| Raise (e : exn).
Arguments Return {A} a.
Arguments Raise {A} e.

(** A computation over a store [S]: it ends with a value or an exception,
    and in both cases with the store as it is at that point. *)
Definition M (S A : Type) : Type := S → result A * S.

Definition ret {S A} (a : A) : M S A := λ s, (Return a, s).

Definition raise {S A} (e : exn) : M S A := λ s, (Raise e, s).

Definition bind {S A B} (m : M S A) (k : A → M S B) : M S B :=
  λ s, match m s with
       | (Return a, s') => k a s'
       | (Raise e, s') => (Raise e, s')
       end.

Definition get {S} : M S S := λ s, (Return s, s).

Definition put {S} (s : S) : M S unit := λ _, (Return tt, s).

Definition lift {S A} (r : result A) : M S A := λ s, (r, s).

Declare Scope py_scope.
Delimit Scope py_scope with py.
Notation "x <- c1 ;; c2" := (bind c1 (λ x, c2))
  (at level 100, c1 at next level, right associativity) : py_scope.
Notation "c1 ;; c2" := (bind c1 (λ _, c2))
  (at level 100, right associativity) : py_scope.

Open Scope py_scope.

(** [for x in xs: body(x)], the loop variable threaded as an accumulator. *)
Fixpoint for_each {S A B} (xs : list A) (body : A → B → M S B) (acc : B)
  : M S B :=
  match xs with
  | [] => ret acc
  | x :: xs' => acc' <- body x acc ;; for_each xs' body acc'
  end.

(** Truthiness of an [Optional[str]]: [None] and [''] are falsy. *)
Definition truthy (o : option string) : option string :=
  match o with
  | Some s => if decide (s = "") then None else Some s
  | None => None
  end.

(** [a or b] for an [Optional[str]] [a] and a string [b]. *)
Definition or_else (a : option string) (b : string) : string :=
  match truthy a with
  | Some s => s
  | None => b
  end.

Definition outcome {S A} (r : result A * S) : result A := r.1.
Definition store {S A} (r : result A * S) : S := r.2.

End Py.

Import Py.
Open Scope py_scope.

(** ** The processor builder ([class _Builder]) *)

Module Builder.

Section Defs.
Context {Tensor Any : Type}.

Abbreviation FeaturesDict := (gmap string Tensor).
Abbreviation ProcessorState := (gmap string Any).

(** A callable registered with [add_fn].  The builder calls it in one of
    four ways, chosen by the flags of its description and not by the
    callable; a callable is thus given by what it does under each of the
    four calls.  A stateful call receives the state dictionary and leaves
    it as the callable mutated it. *)
Record Fn := {
  call_feature : Tensor → result Tensor;
  call_feature_state :
    Tensor → ProcessorState → result (Tensor * ProcessorState);
  call_dict : FeaturesDict → result FeaturesDict;
  call_dict_state :
    FeaturesDict → ProcessorState → result (FeaturesDict * ProcessorState)
}.

(** [_FunctionDescription = namedtuple(fn_name, fn, feature_name, stateful)] *)
Record _FunctionDescription := {
  fn_name : string;
  fn : Fn;
  feature_name : option string;
  stateful : bool
}.

Definition loc := positive.

(** Objects of the store. *)
Inductive obj :=
| ObjBuilder (_fns_list : loc) (_fn_idx : nat)
| ObjList (items : list _FunctionDescription)
| ObjTuple (items : list _FunctionDescription)
| ObjDict (d : ProcessorState).

Abbreviation heap := (gmap loc obj).

Definition alloc (o : obj) : M heap loc :=
  λ h, let l := fresh (dom h) in (Return l, <[l := o]> h).

Definition load (l : loc) : M heap obj :=
  λ h, match h !! l with
       | Some o => (Return o, h)
       | None => (Raise TypeError, h)
       end.

Definition store_at (l : loc) (o : obj) : M heap unit :=
  λ h, (Return tt, <[l := o]> h).

(** Attribute reads and writes on a builder instance. *)
Definition _fns_list (self : loc) : M heap loc :=
  o <- load self ;;
  match o with
  | ObjBuilder l _ => ret l
  | _ => raise TypeError
  end.

Definition _fn_idx (self : loc) : M heap nat :=
  o <- load self ;;
  match o with
  | ObjBuilder _ i => ret i
  | _ => raise TypeError
  end.

Definition set_fns_list (self : loc) (l : loc) : M heap unit :=
  o <- load self ;;
  match o with
  | ObjBuilder _ i => store_at self (ObjBuilder l i)
  | _ => raise TypeError
  end.

Definition set_fn_idx (self : loc) (i : nat) : M heap unit :=
  o <- load self ;;
  match o with
  | ObjBuilder l _ => store_at self (ObjBuilder l i)
  | _ => raise TypeError
  end.

(** Reading the items of a list or of a tuple (iteration, [tuple(..)],
    [copy.copy(..)]). *)
Definition items_of (l : loc) : M heap (list _FunctionDescription) :=
  o <- load l ;;
  match o with
  | ObjList fds | ObjTuple fds => ret fds
  | _ => raise TypeError
  end.

(** [list.append], [list.insert] and item assignment: they mutate the list
    object in place, and exist on lists only. *)
Definition list_append (l : loc) (fd : _FunctionDescription) : M heap unit :=
  o <- load l ;;
  match o with
  | ObjList fds => store_at l (ObjList (fds ++ [fd]))
  | _ => raise TypeError
  end.

Definition list_insert (l : loc) (i : nat) (fd : _FunctionDescription)
  : M heap unit :=
  o <- load l ;;
  match o with
  | ObjList fds => store_at l (ObjList (take i fds ++ fd :: drop i fds))
  | _ => raise TypeError
  end.

Definition list_setitem (l : loc) (i : nat) (fd : _FunctionDescription)
  : M heap unit :=
  o <- load l ;;
  match o with
  | ObjList fds =>
      if decide (i < length fds) then store_at l (ObjList (<[i := fd]> fds))
      else raise IndexError
  | _ => raise TypeError
  end.

Definition list_getitem (l : loc) (i : nat) : M heap _FunctionDescription :=
  fds <- items_of l ;;
  match fds !! i with
  | Some fd => ret fd
  | None => raise IndexError
  end.

(** [[i for i, fd in enumerate(fds) if fd.fn_name == name]] *)
Fixpoint indices_from (i : nat) (name : string)
    (fds : list _FunctionDescription) : list nat :=
  match fds with
  | [] => []
  | fd :: fds' =>
      if decide (fn_name fd = name) then i :: indices_from (S i) name fds'
      else indices_from (S i) name fds'
  end.

Definition indices_of (name : string) (fds : list _FunctionDescription)
  : list nat :=
  indices_from 0 name fds.

(** [[fd.fn_name for fd in fds]] *)
Definition names (fds : list _FunctionDescription) : list string :=
  map fn_name fds.

(** [[fd for fd in fds if fd.fn_name != name]] *)
Definition without (name : string) (fds : list _FunctionDescription)
  : list _FunctionDescription :=
  filter (λ fd, fn_name fd ≠ name) fds.

(** [_FunctionDescription(fd.fn_name, fn, fd.feature_name, fd.stateful)] *)
Definition with_fn (fd : _FunctionDescription) (f : Fn)
  : _FunctionDescription :=
  {| fn_name := fn_name fd; fn := f;
     feature_name := feature_name fd; stateful := stateful fd |}.

(** [__init__] *)
Definition __init__ : M heap loc :=
  l <- alloc (ObjList []) ;;
  alloc (ObjBuilder l 0).

Definition msg_not_unique (name : string) : string :=
  "Given `fn_name` " +:+ name +:+ " is not unique.".

Definition msg_no_add_before : string :=
  "Given `add_before_idx` [] does not exist.".

Definition msg_not_exist (name : string) : string :=
  "Given `fn_name` " +:+ name +:+ " does not exist.".

Definition add_fn (self : loc) (fn : Fn) (feature_name : option string)
    (fn_name : option string) (stateful : bool)
    (add_before_fn_name : option string) : M heap loc :=
  fn_name <- match fn_name with
             | None =>
                 idx <- _fn_idx self ;;
                 set_fn_idx self (idx + 1) ;;
                 ret ("fn_" +:+ pretty idx)
             | Some name => ret name
             end ;;
  l <- _fns_list self ;;
  fds <- items_of l ;;
  if decide (fn_name ∈ names fds) then
    raise (ValueError (msg_not_unique fn_name))
  else
    let new_fd := Build__FunctionDescription fn_name fn feature_name stateful in
    match truthy add_before_fn_name with
    | Some before =>
        l <- _fns_list self ;;
        fds <- items_of l ;;
        match indices_of before fds with
        | [] => raise (ValueError msg_no_add_before)
        | add_before_idx :: _ =>
            l <- _fns_list self ;;
            list_insert l add_before_idx new_fd ;;
            ret self
        end
    | None =>
        l <- _fns_list self ;;
        list_append l new_fd ;;
        ret self
    end.

Definition reset (self : loc) : M heap loc :=
  l <- alloc (ObjList []) ;;
  set_fns_list self l ;;
  ret self.

Definition remove_fn (self : loc) (fn_name : string) : M heap loc :=
  l <- _fns_list self ;;
  fds <- items_of l ;;
  l' <- alloc (ObjList (without fn_name fds)) ;;
  set_fns_list self l' ;;
  ret self.

Definition replace_fn (self : loc) (fn_name : string) (fn : Fn)
  : M heap loc :=
  l <- _fns_list self ;;
  fds <- items_of l ;;
  match indices_of fn_name fds with
  | [] => raise (ValueError (msg_not_exist fn_name))
  | idx :: _ =>
      l <- _fns_list self ;;
      fd <- list_getitem l idx ;;
      let new_fd := with_fn fd fn in
      l <- _fns_list self ;;
      list_setitem l idx new_fd ;;
      ret self
  end.

(** [get_summary]: a new list with the items of the builder's list. *)
Definition get_summary (self : loc) : M heap loc :=
  l <- _fns_list self ;;
  fds <- items_of l ;;
  alloc (ObjList fds).

(** One iteration of the loop of [process_fn]; [state] is the location of
    the state dictionary of this call. *)
Definition apply_fd (state : loc) (fd : _FunctionDescription)
    (output : FeaturesDict) : M heap FeaturesDict :=
  match truthy (feature_name fd) with
  | Some name =>
      if stateful fd then
        match output !! name with
        | None => raise (KeyError (StrKey name))
        | Some x =>
            o <- load state ;;
            match o with
            | ObjDict d =>
                r <- lift (call_feature_state (fn fd) x d) ;;
                store_at state (ObjDict r.2) ;;
                ret (<[name := r.1]> output)
            | _ => raise TypeError
            end
        end
      else
        match output !! name with
        | None => raise (KeyError (StrKey name))
        | Some x =>
            y <- lift (call_feature (fn fd) x) ;;
            ret (<[name := y]> output)
        end
  | None =>
      if stateful fd then
        o <- load state ;;
        match o with
        | ObjDict d =>
            r <- lift (call_dict_state (fn fd) output d) ;;
            store_at state (ObjDict r.2) ;;
            ret r.1
        | _ => raise TypeError
        end
      else
        lift (call_dict (fn fd) output)
  end.

(** The function defined inside [build]; [fns_list] is the variable of the
    enclosing call that it closes over. *)
Definition process_fn (fns_list : loc) (features_dict : FeaturesDict)
  : M heap FeaturesDict :=
  let output := features_dict in
  state <- alloc (ObjDict ∅) ;;
  fds <- items_of fns_list ;;
  for_each fds (apply_fd state) output.

Definition build (self : loc)
  : M heap (FeaturesDict → M heap FeaturesDict) :=
  l <- _fns_list self ;;
  fds <- items_of l ;;
  fns_list <- alloc (ObjTuple fds) ;;
  ret (process_fn fns_list).

(** *** Vocabulary of the statements about the builder *)

(** The calls that mutate a builder. *)
Inductive mutation :=
| Add_fn (fn : Fn) (feature_name fn_name : option string) (stateful : bool)
    (add_before_fn_name : option string)
| Reset
| Remove_fn (fn_name : string)
| Replace_fn (fn_name : string) (fn : Fn).

Definition mutate (self : loc) (m : mutation) : M heap loc :=
  match m with
  | Add_fn fn feature_name fn_name stateful add_before_fn_name =>
      add_fn self fn feature_name fn_name stateful add_before_fn_name
  | Reset => reset self
  | Remove_fn fn_name => remove_fn self fn_name
  | Replace_fn fn_name fn => replace_fn self fn_name fn
  end.

(** A sequence of such calls, one after the other; a call that raises is
    abandoned where it raised and the sequence goes on. *)
Definition mutate_all (self : loc) (ms : list mutation) (h : heap) : heap :=
  fold_left (λ h m, store (mutate self m h)) ms h.

(** [add_fn(fd.fn, fd.feature_name, fd.fn_name, fd.stateful)] for each
    description of a list, in order. *)
Definition add_all (self : loc) (fds : list _FunctionDescription)
  : M heap unit :=
  for_each fds
    (λ fd _,
       add_fn self (fn fd) (feature_name fd) (Some (fn_name fd))
         (stateful fd) None ;;
       ret tt) tt.

(** [self] is a builder whose list holds [fds] and whose counter of
    generated names is [idx]. *)
Definition builder_at (h : heap) (self : loc)
    (fds : list _FunctionDescription) (idx : nat) : Prop :=
  ∃ l, h !! self = Some (ObjBuilder l idx) ∧ h !! l = Some (ObjList fds).

(** The items of the list that [get_summary] returns. *)
Definition summary (self : loc) (h : heap)
  : option (list _FunctionDescription) :=
  match get_summary self h with
  | (Return l, h') =>
      match h' !! l with
      | Some (ObjList fds) => Some fds
      | _ => None
      end
  | _ => None
  end.

(** The name that [add_fn] generates when the counter is [idx]. *)
Definition generated_name (idx : nat) : string := "fn_" +:+ pretty idx.

(** [add_fn(fn, feature_name, stateful=stateful)], without [fn_name], for
    each triple of a list, in order. *)
Definition add_unnamed (self : loc) (calls : list (Fn * option string * bool))
  : M heap unit :=
  for_each calls
    (λ c _, add_fn self c.1.1 c.1.2 None c.2 None ;; ret tt) tt.

(** The description that the [i]-th of such calls registers when the counter
    starts at [idx]. *)
Definition unnamed_fd (idx i : nat) (c : Fn * option string * bool)
  : _FunctionDescription :=
  {| fn_name := generated_name (idx + i); fn := c.1.1;
     feature_name := c.1.2; stateful := c.2 |}.

(** Every tuple of [h1] is in [h2], with the same items. *)
Definition tuples_kept (h1 h2 : heap) : Prop :=
  ∀ l fds, h1 !! l = Some (ObjTuple fds) → h2 !! l = Some (ObjTuple fds).

(** A computation keeps the tuples of the store it starts from. *)
Definition keeps_tuples {A} (m : M heap A) : Prop :=
  ∀ h, tuples_kept h (store (m h)).

(** The call that [process_fn] makes for [fd], on the features [output]
    and the state [d], raises [e]: the flags of [fd] select the call, and a
    non-empty [feature_name] selects the value it is made on. *)
Definition call_raises (fd : _FunctionDescription) (output : FeaturesDict)
    (d : ProcessorState) (e : exn) : Prop :=
  match truthy (feature_name fd) with
  | Some name =>
      match output !! name with
      | Some x =>
          if stateful fd then call_feature_state (fn fd) x d = Raise e
          else call_feature (fn fd) x = Raise e
      | None => False
      end
  | None =>
      if stateful fd then call_dict_state (fn fd) output d = Raise e
      else call_dict (fn fd) output = Raise e
  end.

(** [e] is the [KeyError] of the lookup of the non-empty [feature_name] of
    [fd], which is not a key of [output]. *)
Definition lookup_raises (fd : _FunctionDescription) (output : FeaturesDict)
    (e : exn) : Prop :=
  ∃ name, feature_name fd = Some name ∧ name ≠ "" ∧
          output !! name = None ∧ e = KeyError (StrKey name).

End Defs.

Arguments Fn : clear implicits.
Arguments _FunctionDescription : clear implicits.
Arguments obj : clear implicits.
Arguments mutation : clear implicits.

End Builder.

(** ** The schema of a parser builder *)

(** The two dictionaries of a parser builder agree: they have the same keys,
    every list of output names is non-empty and without repetition, and no
    output name is in the lists of two keys. *)
Definition schema_ok {K} `{Countable K} {T}
    (features : gmap K T) (name_dict : gmap K (list string)) : Prop :=
  (∀ k, is_Some (features !! k) ↔ is_Some (name_dict !! k)) ∧
  (∀ k l, name_dict !! k = Some l → NoDup l ∧ l ≠ []) ∧
  (∀ k1 k2 l1 l2 o,
     name_dict !! k1 = Some l1 → name_dict !! k2 = Some l2 →
     o ∈ l1 → o ∈ l2 → k1 = k2).

(** ** The parser builder for [tf.train.Example] ([class ExampleParserBuilder]) *)

Module ExampleParserBuilder.

Section Defs.
Context {Tensor FeatureType : Type} `{!EqDecision FeatureType}.

Abbreviation FeaturesDict := (gmap string Tensor).

(** TensorFlow's [tf.io.parse_single_example] and [tf.identity]: the first
    yields the items of the parsed dictionary in iteration order, or
    raises. *)
Variable parse_single_example :
  Tensor → gmap string FeatureType → result (list (string * Tensor)).
Variable identity : Tensor → Tensor.

(** The attributes of an instance. *)
Record t := {
  _features : gmap string FeatureType;
  _name_dict : gmap string (list string)
}.

Definition __init__ : t := {| _features := ∅; _name_dict := ∅ |}.

Definition set_features (f : gmap string FeatureType) : M t unit :=
  self <- get ;; put {| _features := f; _name_dict := _name_dict self |}.

Definition set_name_dict (d : gmap string (list string)) : M t unit :=
  self <- get ;; put {| _features := _features self; _name_dict := d |}.

(** [dict.values()]; the only loop over it raises the same exception
    whichever list holds the name, so its order is not observed. *)
Definition values (d : gmap string (list string)) : list (list string) :=
  (map_to_list d).*2.

Definition msg_not_unique (output_name : string) : string :=
  "Given output_name " +:+ output_name +:+ " is not unique.".

Definition msg_different_type (feature_name : string) : string :=
  "Different `feature_type` given for the same feature "
    +:+ feature_name +:+ ".".

Definition parse_feature (feature_name : string)
    (feature_type : FeatureType) (output_name : option string) : M t unit :=
  let output_name := or_else output_name feature_name in
  self <- get ;;
  for_each (values (_name_dict self))
    (λ name_list _,
       if decide (output_name ∈ name_list) then
         raise (ValueError (msg_not_unique output_name))
       else ret tt) tt ;;
  self <- get ;;
  match _features self !! feature_name with
  | None => set_features (<[feature_name := feature_type]> (_features self))
  | Some ty =>
      if decide (ty ≠ feature_type) then
        raise (ValueError (msg_different_type feature_name))
      else ret tt
  end ;;
  self <- get ;;
  (if decide (feature_name ∉ dom (_name_dict self)) then
     set_name_dict (<[feature_name := []]> (_name_dict self))
   else ret tt) ;;
  self <- get ;;
  match _name_dict self !! feature_name with
  | None => raise (KeyError (StrKey feature_name))
  | Some name_list =>
      set_name_dict
        (<[feature_name := (name_list ++ [output_name])%list]>
           (_name_dict self))
  end.

Definition _parse_fn (raw_data : Tensor) : M t FeaturesDict :=
  self <- get ;;
  parsed <- lift (parse_single_example raw_data (_features self)) ;;
  for_each parsed
    (λ kf output,
       self <- get ;;
       match _name_dict self !! kf.1 with
       | None => raise (KeyError (StrKey kf.1))
       | Some output_names =>
           for_each output_names
             (λ output_name output,
                ret (<[output_name := identity kf.2]> output))
             output
       end) ∅.

(** [build] returns the bound method, which reads the instance when it is
    called. *)
Definition build : M t (Tensor → M t FeaturesDict) := ret _parse_fn.

(** *** Vocabulary of the statements about the parser builder *)

(** TensorFlow's parser, when it returns, yields one item for each key of
    the features it is given, and no other item. *)
Definition yields_requested : Prop :=
  ∀ raw features parsed,
    parse_single_example raw features = Return parsed →
    NoDup parsed.*1 ∧ ∀ k, k ∈ parsed.*1 ↔ is_Some (features !! k).

(** [output_name] is among the output names registered so far. *)
Definition registered (self : t) (output_name : string) : Prop :=
  ∃ k name_list,
    _name_dict self !! k = Some name_list ∧ output_name ∈ name_list.

(** The instances that calls of [parse_feature] lead to, whether the calls
    return or raise. *)
Inductive reachable : t → Prop :=
| reachable_init : reachable __init__
| reachable_parse_feature self feature_name feature_type output_name :
    reachable self →
    reachable (store (parse_feature feature_name feature_type output_name
                        self)).

(** Every feature with a type has a list of output names, and no output
    name is in the lists of two features. *)
Definition consistent (self : t) : Prop :=
  (∀ k, is_Some (_features self !! k) → is_Some (_name_dict self !! k)) ∧
  (∀ k1 k2 l1 l2 o,
     _name_dict self !! k1 = Some l1 → _name_dict self !! k2 = Some l2 →
     o ∈ l1 → o ∈ l2 → k1 = k2).

End Defs.

Arguments t : clear implicits.

End ExampleParserBuilder.

(** ** The parser builder for [tf.train.SequenceExample]
    ([class SequenceExampleParserBuilder]) *)

Module SequenceExampleParserBuilder.

Section Defs.
Context {Tensor FeatureType : Type} `{!EqDecision FeatureType}.

Abbreviation FeaturesDict := (gmap string Tensor).

(** [tf.io.parse_single_sequence_example]: the items of the parsed context
    and of the parsed feature lists, or an exception. *)
Variable parse_single_sequence_example :
  Tensor → gmap string FeatureType → gmap string FeatureType →
  result (list (string * Tensor) * list (string * Tensor)).
Variable identity : Tensor → Tensor.

Record t := {
  _features : gmap (string * bool) FeatureType;
  _name_dict : gmap (string * bool) (list string)
}.

Definition __init__ : t := {| _features := ∅; _name_dict := ∅ |}.

Definition set_features (f : gmap (string * bool) FeatureType) : M t unit :=
  self <- get ;; put {| _features := f; _name_dict := _name_dict self |}.

Definition set_name_dict (d : gmap (string * bool) (list string))
  : M t unit :=
  self <- get ;; put {| _features := _features self; _name_dict := d |}.

Definition values (d : gmap (string * bool) (list string))
  : list (list string) :=
  (map_to_list d).*2.

Definition msg_not_unique (output_name : string) : string :=
  "Given `output_name` " +:+ output_name +:+ " is not unique.".

Definition str_of_bool (b : bool) : string :=
  if b then "True" else "False".

Definition msg_different_type (feature_name : string) (is_context : bool)
  : string :=
  "Different `feature_type` given for the same feature "
    +:+ feature_name +:+ " with `is_context` "
    +:+ str_of_bool is_context +:+ ".".

Definition parse_feature (feature_name : string)
    (feature_type : FeatureType) (output_name : option string)
    (is_context : bool) : M t unit :=
  let output_name := or_else output_name feature_name in
  self <- get ;;
  for_each (values (_name_dict self))
    (λ name_list _,
       if decide (output_name ∈ name_list) then
         raise (ValueError (msg_not_unique output_name))
       else ret tt) tt ;;
  let feature_key := (feature_name, is_context) in
  self <- get ;;
  match _features self !! feature_key with
  | None => set_features (<[feature_key := feature_type]> (_features self))
  | Some ty =>
      if decide (ty ≠ feature_type) then
        raise (ValueError (msg_different_type feature_name is_context))
      else ret tt
  end ;;
  self <- get ;;
  (if decide ((feature_name, is_context) ∉ dom (_name_dict self)) then
     set_name_dict (<[(feature_name, is_context) := []]> (_name_dict self))
   else ret tt) ;;
  self <- get ;;
  match _name_dict self !! (feature_name, is_context) with
  | None => raise (KeyError (TupleKey feature_name is_context))
  | Some name_list =>
      set_name_dict
        (<[(feature_name, is_context) := (name_list ++ [output_name])%list]>
           (_name_dict self))
  end.

(** [{n: t for (n, c), t in features.items() if c == context}] *)
Definition features_with (context : bool)
    (features : gmap (string * bool) FeatureType)
  : gmap string FeatureType :=
  list_to_map
    (omap (λ kt : string * bool * FeatureType,
             if decide (kt.1.2 = context) then Some (kt.1.1, kt.2)
             else None)
          (map_to_list features)).

(** The loop over the items parsed for one value of [context]. *)
Definition rename_features (context : bool)
    (parsed : list (string * Tensor)) (output : FeaturesDict)
  : M t FeaturesDict :=
  for_each parsed
    (λ kf output,
       self <- get ;;
       match _name_dict self !! (kf.1, context) with
       | None => raise (KeyError (TupleKey kf.1 context))
       | Some output_names =>
           for_each output_names
             (λ output_name output,
                ret (<[output_name := identity kf.2]> output))
             output
       end) output.

Definition _parse_fn (raw_data : Tensor) : M t FeaturesDict :=
  self <- get ;;
  let context_features := features_with true (_features self) in
  let sequence_features := features_with false (_features self) in
  parsed <- lift (parse_single_sequence_example raw_data
                    context_features sequence_features) ;;
  for_each [(true, parsed.1); (false, parsed.2)]
    (λ cp output, rename_features cp.1 cp.2 output) ∅.

Definition build : M t (Tensor → M t FeaturesDict) := ret _parse_fn.

(** *** Vocabulary of the statements about the parser builder *)

(** TensorFlow's parser, when it returns, yields one context item for each
    key of the context features it is given and one sequence item for each
    key of the sequence features, and no other item. *)
Definition yields_requested : Prop :=
  ∀ raw context_features sequence_features parsed_context parsed_sequence,
    parse_single_sequence_example raw context_features sequence_features
    = Return (parsed_context, parsed_sequence) →
    (NoDup parsed_context.*1 ∧
     ∀ k, k ∈ parsed_context.*1 ↔ is_Some (context_features !! k)) ∧
    (NoDup parsed_sequence.*1 ∧
     ∀ k, k ∈ parsed_sequence.*1 ↔ is_Some (sequence_features !! k)).

Definition registered (self : t) (output_name : string) : Prop :=
  ∃ k name_list,
    _name_dict self !! k = Some name_list ∧ output_name ∈ name_list.

Inductive reachable : t → Prop :=
| reachable_init : reachable __init__
| reachable_parse_feature self feature_name feature_type output_name
    is_context :
    reachable self →
    reachable (store (parse_feature feature_name feature_type output_name
                        is_context self)).

Definition consistent (self : t) : Prop :=
  (∀ k, is_Some (_features self !! k) → is_Some (_name_dict self !! k)) ∧
  (∀ k1 k2 l1 l2 o,
     _name_dict self !! k1 = Some l1 → _name_dict self !! k2 = Some l2 →
     o ∈ l1 → o ∈ l2 → k1 = k2).

End Defs.

Arguments t : clear implicits.

End SequenceExampleParserBuilder.

(** ** The filter builder ([class FilterBuilder]) *)

Module FilterBuilder.

Section Defs.
Context {Tensor : Type}.

Abbreviation FeaturesDict := (gmap string Tensor).

(** [FilterFn]: a caller's predicate yields a boolean tensor of shape [()],
    or raises. *)
Definition FilterFn : Type := FeaturesDict → result bool.

Record t := { _filter_fns : gmap Phase (list FilterFn) }.

Definition __init__ : t :=
  {| _filter_fns :=
       fold_left (λ d phase, <[phase := []]> d) Phase_members ∅ |}.

Definition add_filter_fn (filter_fn : FilterFn) (after_phase : Phase)
  : M t unit :=
  self <- get ;;
  match _filter_fns self !! after_phase with
  | None => raise (KeyError (PhaseKey after_phase))
  | Some fns =>
      put {| _filter_fns :=
               <[after_phase := (fns ++ [filter_fn])%list]>
                 (_filter_fns self) |}
  end.

(** The function defined inside [build]; it keeps no store of its own. *)
Definition filter_fn {S} (filter_fns : list FilterFn)
    (features_dict : FeaturesDict) : M S bool :=
  let keep := true in
  for_each filter_fns
    (λ fn keep, b <- lift (fn features_dict) ;; ret (keep && b)) keep.

Definition build (after_phase : Phase)
  : M t (FeaturesDict → M t bool) :=
  self <- get ;;
  match _filter_fns self !! after_phase with
  | None => raise (KeyError (PhaseKey after_phase))
  | Some fns =>
      let filter_fns := fns in
      ret (filter_fn filter_fns)
  end.

(** *** Vocabulary of the statements about the filter builder *)

(** A predicate that always yields its boolean. *)
Definition pure_fn (p : FeaturesDict → bool) : FilterFn :=
  λ features_dict, Return (p features_dict).

(** [add_filter_fn(fn, phase)] for each pair of a list, in order. *)
Definition add_all (regs : list (FilterFn * Phase)) : M t unit :=
  for_each regs (λ r _, add_filter_fn r.1 r.2) tt.

(** The predicates of a list of registrations that are for [phase]. *)
Definition registered_for (phase : Phase)
    (regs : list ((FeaturesDict → bool) * Phase))
  : list (FeaturesDict → bool) :=
  (filter (λ r, r.2 = phase) regs).*1.

(** The registrations made on a new builder, the filter of [phase] built
    and called on [features_dict]. *)
Definition run_filter (regs : list ((FeaturesDict → bool) * Phase))
    (phase : Phase) (features_dict : FeaturesDict) : result bool :=
  outcome
    ((add_all (map (λ r, (pure_fn r.1, r.2)) regs) ;;
      filter_fn <- build phase ;;
      filter_fn features_dict) __init__).

End Defs.

Arguments t : clear implicits.
Arguments FilterFn : clear implicits.

End FilterBuilder.

(** ** Sample processors over integer features *)

Module Examples.

Import Builder.

Abbreviation Fn := (Builder.Fn Z Z).
Abbreviation heap := (gmap loc (obj Z Z)).

(** A function of one tensor, such as [def double(x): return 2 * x]; any
    other call of it is a [TypeError]. *)
Definition feature_fn (f : Z → Z) : Fn :=
  {| call_feature := λ x, Return (f x);
     call_feature_state := λ _ _, Raise TypeError;
     call_dict := λ _, Raise TypeError;
     call_dict_state := λ _ _, Raise TypeError |}.

Definition double : Fn := feature_fn (λ x, 2 * x)%Z.
Definition add_one : Fn := feature_fn (λ x, x + 1)%Z.

(** [def write_k(x, state): state['k'] = 5; return x] *)
Definition write_k : Fn :=
  {| call_feature := λ _, Raise TypeError;
     call_feature_state := λ x d, Return (x, <["k" := 5%Z]> d);
     call_dict := λ _, Raise TypeError;
     call_dict_state := λ _ _, Raise TypeError |}.

(** [def read_k(features, state): features['out'] = state['k'];
    return features] *)
Definition read_k : Fn :=
  {| call_feature := λ _, Raise TypeError;
     call_feature_state := λ _ _, Raise TypeError;
     call_dict := λ _, Raise TypeError;
     call_dict_state := λ o d,
       match d !! "k" with
       | Some v => Return (<["out" := v]> o, d)
       | None => Raise (KeyError (StrKey "k"))
       end |}.

(** A new builder in the empty store, and its location. *)
Definition h0 : heap := store (__init__ ∅).
Definition self0 : loc := 2%positive.

(** The store after [add_fn(f, 'n', name)] for each [(name, f)], in order. *)
Definition with_steps (steps : list (string * Fn)) : heap :=
  fold_left
    (λ h nf, store (add_fn self0 nf.2 (Some "n") (Some nf.1) false None h))
    steps h0.

(** The description that [add_fn(f, 'n', name)] registers. *)
Definition step (name : string) (f : Fn) : _FunctionDescription Z Z :=
  {| fn_name := name; fn := f; feature_name := Some "n"; stateful := false |}.

(** The store after [add_fn(write_k, 'n', stateful=True)] and
    [add_fn(read_k, stateful=True)] on the new builder. *)
Definition stateful_pair : heap :=
  store (add_fn self0 read_k None None true None
           (store (add_fn self0 write_k (Some "n") None true None h0))).

(** [builder.build()(features)] *)
Definition build_and_call (self : loc) (features : gmap string Z)
  : M heap (gmap string Z) :=
  process <- build self ;; process features.

(** *** Sample parsers *)

(** The feature types that [parse_feature] accepts. *)
Inductive FeatureType :=
| VarLenFeature
| FixedLenFeature
| FixedLenSequenceFeature.

#[global] Instance FeatureType_eq_dec : EqDecision FeatureType.
Proof. solve_decision. Defined.

(** A parser that yields the raw tensor for every feature it is asked
    for. *)
Definition parse_single_example (raw : Z) (features : gmap string FeatureType)
  : result (list (string * Z)) :=
  Return ((λ kt : string * FeatureType, (kt.1, raw)) <$> map_to_list features).

Definition parse_single_sequence_example (raw : Z)
    (context_features sequence_features : gmap string FeatureType)
  : result (list (string * Z) * list (string * Z)) :=
  Return ((λ kt : string * FeatureType, (kt.1, raw))
            <$> map_to_list context_features,
          (λ kt : string * FeatureType, (kt.1, raw))
            <$> map_to_list sequence_features).

Definition identity (x : Z) : Z := x.

(** Feature ['a'] registered with output name ['x']. *)
Definition example_a_x : ExampleParserBuilder.t FeatureType :=
  store (ExampleParserBuilder.parse_feature "a" VarLenFeature (Some "x")
           ExampleParserBuilder.__init__).

Definition sequence_a_x : SequenceExampleParserBuilder.t FeatureType :=
  store (SequenceExampleParserBuilder.parse_feature "a" VarLenFeature
           (Some "x") false SequenceExampleParserBuilder.__init__).

(** Sample predicates on the feature ['n']. *)
Definition positive_n (features : gmap string Z) : bool :=
  match features !! "n" with
  | Some n => bool_decide (0 < n)%Z
  | None => false
  end.

Definition small_n (features : gmap string Z) : bool :=
  match features !! "n" with
  | Some n => bool_decide (n < 10)%Z
  | None => false
  end.

End Examples.

(** * Properties *)

(** ** The monad *)

Section BuilderFacts.
Import Builder.
Context {Tensor Any : Type}.
Local Abbreviation FD := (_FunctionDescription Tensor Any).
Local Abbreviation heap := (gmap loc (obj Tensor Any)).
Implicit Types (h : heap) (fds : list FD) (fd : FD) (self l : loc).
Implicit Types (o : obj Tensor Any) (f : Fn Tensor Any).
Local Abbreviation keeps_tuples := (@Builder.keeps_tuples Tensor Any _).

Lemma bind_ret {S A B} (a : A) (k : A → M S B) s : bind (ret a) k s = k a s.
Proof. reflexivity. Qed.

Lemma bind_raise {S A B} e (k : A → M S B) s :
  bind (raise e) k s = (Raise e, s).
Proof. reflexivity. Qed.

Lemma bind_return {S A B} (m : M S A) (k : A → M S B) s a s' :
  m s = (Return a, s') → bind m k s = k a s'.
Proof. intros H. unfold bind. by rewrite H. Qed.

Lemma bind_raised {S A B} (m : M S A) (k : A → M S B) s e s' :
  m s = (Raise e, s') → bind m k s = (Raise e, s').
Proof. intros H. unfold bind. by rewrite H. Qed.

Lemma bind_assoc {S A B C} (m : M S A) (k1 : A → M S B) (k2 : B → M S C) s :
  bind (bind m k1) k2 s = bind m (λ a, bind (k1 a) k2) s.
Proof. unfold bind. by destruct (m s) as [[a|e] s']. Qed.

Lemma bind_lift_return {S A B} (a : A) (k : A → M S B) s :
  bind (lift (Return a)) k s = k a s.
Proof. reflexivity. Qed.

Lemma bind_lift_raise {S A B} e (k : A → M S B) s :
  bind (lift (Raise e)) k s = (Raise e, s).
Proof. reflexivity. Qed.

Lemma bind_load {B} h l o (k : _ → M heap B) :
  h !! l = Some o → bind (load l) k h = k o h.
Proof. intros H. unfold bind, load. by rewrite H. Qed.

Lemma bind_alloc {B} h o (k : loc → M heap B) :
  bind (alloc o) k h = k (fresh (dom h)) (<[fresh (dom h) := o]> h).
Proof. reflexivity. Qed.

Lemma bind_store_at {B} h l o (k : unit → M heap B) :
  bind (store_at l o) k h = k tt (<[l := o]> h).
Proof. reflexivity. Qed.

Lemma bind_fns_list {B} h self l i (k : loc → M heap B) :
  h !! self = Some (ObjBuilder l i) → bind (_fns_list self) k h = k l h.
Proof. intros H. unfold _fns_list, bind, load. by rewrite H. Qed.

Lemma bind_fn_idx {B} h self l i (k : nat → M heap B) :
  h !! self = Some (ObjBuilder l i) → bind (_fn_idx self) k h = k i h.
Proof. intros H. unfold _fn_idx, bind, load. by rewrite H. Qed.

Lemma bind_set_fn_idx {B} h self l i j (k : unit → M heap B) :
  h !! self = Some (ObjBuilder l i) →
  bind (set_fn_idx self j) k h = k tt (<[self := ObjBuilder l j]> h).
Proof. intros H. unfold set_fn_idx, bind, load, store_at. by rewrite H. Qed.

Lemma bind_set_fns_list {B} h self l i l' (k : unit → M heap B) :
  h !! self = Some (ObjBuilder l i) →
  bind (set_fns_list self l') k h = k tt (<[self := ObjBuilder l' i]> h).
Proof. intros H. unfold set_fns_list, bind, load, store_at. by rewrite H. Qed.

Lemma bind_items_of {B} h l fds (k : list FD → M heap B) :
  h !! l = Some (ObjList fds) ∨ h !! l = Some (ObjTuple fds) →
  bind (items_of l) k h = k fds h.
Proof. intros [H|H]; unfold items_of, bind, load; by rewrite H. Qed.

Lemma bind_list_append {B} h l fds fd (k : unit → M heap B) :
  h !! l = Some (ObjList fds) →
  bind (list_append l fd) k h = k tt (<[l := ObjList (fds ++ [fd])]> h).
Proof. intros H. unfold list_append, bind, load, store_at. by rewrite H. Qed.

Lemma bind_list_insert {B} h l fds i fd (k : unit → M heap B) :
  h !! l = Some (ObjList fds) →
  bind (list_insert l i fd) k h
  = k tt (<[l := ObjList (take i fds ++ fd :: drop i fds)]> h).
Proof. intros H. unfold list_insert, bind, load, store_at. by rewrite H. Qed.

Lemma bind_list_setitem {B} h l fds i fd (k : unit → M heap B) :
  h !! l = Some (ObjList fds) → i < length fds →
  bind (list_setitem l i fd) k h = k tt (<[l := ObjList (<[i := fd]> fds)]> h).
Proof.
  intros H Hi. unfold list_setitem, bind, load, store_at. rewrite H.
  by rewrite decide_True.
Qed.

Lemma bind_list_getitem {B} h l fds i fd (k : FD → M heap B) :
  h !! l = Some (ObjList fds) → fds !! i = Some fd →
  bind (list_getitem l i) k h = k fd h.
Proof.
  intros H Hi. unfold list_getitem, items_of, bind, load. rewrite H.
  unfold ret. by rewrite Hi.
Qed.

(** A builder and its list are distinct objects. *)
Lemma builder_ne_list h self l i l' fds :
  h !! self = Some (ObjBuilder l i) → h !! l' = Some (ObjList fds) →
  self ≠ l'.
Proof. intros H1 H2 ->. congruence. Qed.

Lemma indices_from_nil i name fds :
  name ∉ names fds → indices_from i name fds = [].
Proof.
  revert i. induction fds as [|fd fds IH]; intros i Hn; [done|].
  simpl. rewrite decide_False.
  - apply IH. intros ?. apply Hn. by right.
  - intros <-. apply Hn. by left.
Qed.

Lemma indices_from_first i name pre fd post :
  name ∉ names pre → fn_name fd = name →
  ∃ rest,
    indices_from i name (pre ++ fd :: post) = ((i + length pre) :: rest).
Proof.
  revert i. induction pre as [|p pre IH]; intros i Hn Hfd; simpl.
  - rewrite decide_True by done. rewrite Nat.add_0_r. eauto.
  - rewrite decide_False.
    + destruct (IH (S i)) as [rest ->]; [|done|].
      * intros ?. apply Hn. by right.
      * exists rest. f_equal. lia.
    + intros <-. apply Hn. by left.
Qed.

Lemma names_elem_split name fds :
  name ∈ names fds →
  ∃ pre fd post,
    fds = (pre ++ fd :: post) ∧ (name ∉ names pre) ∧ fn_name fd = name.
Proof.
  induction fds as [|fd fds IH]; intros Hin.
  - by apply elem_of_nil in Hin.
  - destruct (decide (fn_name fd = name)) as [Heq|Hne].
    + exists [], fd, fds. split_and!; [done| |done]. apply not_elem_of_nil.
    + apply elem_of_cons in Hin as [?|Hin]; [done|].
      destruct (IH Hin) as (pre & fd' & post & -> & Hpre & Hfd).
      exists (fd :: pre), fd', post. split_and!; [done| |done].
      intros [?|?]%elem_of_cons; done.
Qed.

Lemma add_fn_dup h self l i fds f feat name st before :
  h !! self = Some (ObjBuilder l i) → h !! l = Some (ObjList fds) →
  name ∈ names fds →
  add_fn self f feat (Some name) st before h = (Raise (ValueError (msg_not_unique name)), h).
Proof.
  intros Hs Hl Hin. unfold add_fn.
  rewrite bind_ret. erewrite bind_fns_list by done.
  erewrite bind_items_of by eauto.
  by rewrite decide_True.
Qed.

Lemma add_fn_named_append h self l i fds f feat name st before :
  h !! self = Some (ObjBuilder l i) → h !! l = Some (ObjList fds) →
  name ∉ names fds → truthy before = None →
  add_fn self f feat (Some name) st before h
  = (Return self,
     <[l := ObjList (fds ++ [{| fn_name := name; fn := f; feature_name := feat; stateful := st |}])]> h).
Proof.
  intros Hs Hl Hin Hb. unfold add_fn.
  rewrite bind_ret. erewrite bind_fns_list by done.
  erewrite bind_items_of by eauto.
  rewrite decide_False by done. rewrite Hb.
  erewrite bind_fns_list by done. by erewrite bind_list_append.
Qed.

Lemma add_fn_named_insert h self l i pre fd post f feat name st before b :
  h !! self = Some (ObjBuilder l i) →
  h !! l = Some (ObjList (pre ++ fd :: post)) →
  name ∉ names (pre ++ fd :: post) → truthy before = Some b →
  b ∉ names pre → fn_name fd = b →
  add_fn self f feat (Some name) st before h
  = (Return self,
     <[l := ObjList (pre ++ {| fn_name := name; fn := f; feature_name := feat; stateful := st |}
                         :: fd :: post)]> h).
Proof.
  intros Hs Hl Hin Hb Hpre Hfd. unfold add_fn.
  rewrite bind_ret. erewrite bind_fns_list by done.
  erewrite bind_items_of by eauto.
  rewrite decide_False by done. rewrite Hb.
  erewrite bind_fns_list by done. erewrite bind_items_of by eauto.
  unfold indices_of.
  destruct (indices_from_first 0 b pre fd post Hpre Hfd) as [rest ->].
  erewrite bind_fns_list by done. erewrite bind_list_insert by done.
  simpl. by rewrite take_app_length, drop_app_length.
Qed.

Lemma add_fn_named_unknown h self l i fds f feat name st before b :
  h !! self = Some (ObjBuilder l i) → h !! l = Some (ObjList fds) →
  name ∉ names fds → truthy before = Some b → b ∉ names fds →
  add_fn self f feat (Some name) st before h
  = (Raise (ValueError msg_no_add_before), h).
Proof.
  intros Hs Hl Hin Hb Hnb. unfold add_fn.
  rewrite bind_ret. erewrite bind_fns_list by done.
  erewrite bind_items_of by eauto.
  rewrite decide_False by done. rewrite Hb.
  erewrite bind_fns_list by done. erewrite bind_items_of by eauto.
  unfold indices_of. by rewrite indices_from_nil.
Qed.

Lemma replace_fn_unknown h self l i fds name f :
  h !! self = Some (ObjBuilder l i) → h !! l = Some (ObjList fds) →
  name ∉ names fds →
  replace_fn self name f h = (Raise (ValueError (msg_not_exist name)), h).
Proof.
  intros Hs Hl Hn. unfold replace_fn.
  erewrite bind_fns_list by done. erewrite bind_items_of by eauto.
  unfold indices_of. by rewrite indices_from_nil.
Qed.

Lemma replace_fn_known h self l i pre fd post name f :
  h !! self = Some (ObjBuilder l i) →
  h !! l = Some (ObjList (pre ++ fd :: post)) →
  name ∉ names pre → fn_name fd = name →
  replace_fn self name f h
  = (Return self, <[l := ObjList (pre ++ with_fn fd f :: post)]> h).
Proof.
  intros Hs Hl Hpre Hfd. unfold replace_fn.
  erewrite bind_fns_list by done. erewrite bind_items_of by eauto.
  unfold indices_of.
  destruct (indices_from_first 0 name pre fd post Hpre Hfd) as [rest ->].
  simpl.
  erewrite bind_fns_list by done.
  erewrite bind_list_getitem; [|done|by apply list_lookup_middle].
  erewrite bind_fns_list by done.
  erewrite bind_list_setitem; [|done|rewrite length_app; simpl; lia].
  unfold ret. by rewrite insert_app_r_alt, Nat.sub_diag by lia.
Qed.

(** *** Tuples are never written to *)

Lemma tuples_kept_refl h : tuples_kept h h.
Proof. by intros l fds. Qed.

Lemma tuples_kept_trans h1 h2 h3 :
  tuples_kept h1 h2 → tuples_kept h2 h3 → tuples_kept h1 h3.
Proof. intros H12 H23 l fds H. eauto. Qed.

Lemma tuples_kept_fresh h o : tuples_kept h (<[fresh (dom h) := o]> h).
Proof.
  intros l fds H. rewrite lookup_insert_ne; [done|].
  intros <-. apply (is_fresh (dom h)). apply elem_of_dom. eauto.
Qed.

Lemma tuples_kept_overwrite h l o o' :
  h !! l = Some o → (∀ fds, o ≠ ObjTuple fds) →
  tuples_kept h (<[l := o']> h).
Proof.
  intros Hl Ho l' fds H. rewrite lookup_insert_ne; [done|].
  intros <-. rewrite Hl in H. inversion H. by eapply Ho.
Qed.

Lemma keeps_ret {A} (a : A) : keeps_tuples (ret a : M heap A).
Proof. intros h. apply tuples_kept_refl. Qed.

Lemma keeps_raise {A} e : keeps_tuples (raise e : M heap A).
Proof. intros h. apply tuples_kept_refl. Qed.

Lemma keeps_lift {A} (r : result A) : keeps_tuples (lift r : M heap A).
Proof. intros h. apply tuples_kept_refl. Qed.

Lemma keeps_bind {A B} (m : M heap A) (k : A → M heap B) :
  keeps_tuples m → (∀ a, keeps_tuples (k a)) → keeps_tuples (bind m k).
Proof.
  intros Hm Hk h. unfold bind. specialize (Hm h).
  destruct (m h) as [[a|e] h']; simpl in *; [|done].
  eapply tuples_kept_trans; [done|]. apply Hk.
Qed.

Lemma keeps_alloc o : keeps_tuples (alloc o).
Proof. intros h. apply tuples_kept_fresh. Qed.

Lemma keeps_load l : keeps_tuples (load l).
Proof. intros h. unfold load. destruct (h !! l); apply tuples_kept_refl. Qed.

Ltac keeps_write :=
  let h := fresh "h" in
  let o := fresh "o" in
  let Hl := fresh "Hl" in
  intros h; unfold bind, load;
  match goal with
  | |- context [h !! ?l] => destruct (h !! l) as [o|] eqn:Hl
  end; [|apply tuples_kept_refl];
  destruct o; try apply tuples_kept_refl;
  try case_decide; try apply tuples_kept_refl;
  by eapply tuples_kept_overwrite.

Lemma keeps_set_fns_list self l : keeps_tuples (set_fns_list self l).
Proof. unfold set_fns_list. keeps_write. Qed.

Lemma keeps_set_fn_idx self i : keeps_tuples (set_fn_idx self i).
Proof. unfold set_fn_idx. keeps_write. Qed.

Lemma keeps_list_append l fd : keeps_tuples (list_append l fd).
Proof. unfold list_append. keeps_write. Qed.

Lemma keeps_list_insert l i fd : keeps_tuples (list_insert l i fd).
Proof. unfold list_insert. keeps_write. Qed.

Lemma keeps_list_setitem l i fd : keeps_tuples (list_setitem l i fd).
Proof. unfold list_setitem. keeps_write. Qed.

Lemma keeps_fns_list self : keeps_tuples (_fns_list self).
Proof.
  apply keeps_bind; [apply keeps_load|].
  intros []; first [apply keeps_ret | apply keeps_raise].
Qed.

Lemma keeps_fn_idx self : keeps_tuples (_fn_idx self).
Proof.
  apply keeps_bind; [apply keeps_load|].
  intros []; first [apply keeps_ret | apply keeps_raise].
Qed.

Lemma keeps_items_of l : keeps_tuples (items_of l).
Proof.
  apply keeps_bind; [apply keeps_load|].
  intros []; first [apply keeps_ret | apply keeps_raise].
Qed.

Lemma keeps_list_getitem l i : keeps_tuples (list_getitem l i).
Proof.
  apply keeps_bind; [apply keeps_items_of|].
  intros fds. destruct (fds !! i); [apply keeps_ret | apply keeps_raise].
Qed.

Ltac keeps :=
  repeat first
    [ apply keeps_ret | apply keeps_raise | apply keeps_lift
    | apply keeps_alloc | apply keeps_load
    | apply keeps_fns_list | apply keeps_fn_idx | apply keeps_items_of
    | apply keeps_set_fns_list | apply keeps_set_fn_idx
    | apply keeps_list_append | apply keeps_list_insert
    | apply keeps_list_setitem | apply keeps_list_getitem
    | apply keeps_bind; [|intros ?]
    | case_decide
    | match goal with
      | |- keeps_tuples (match ?x with _ => _ end) => destruct x
      end ].

Lemma keeps_add_fn self f feat name st before :
  keeps_tuples (add_fn self f feat name st before).
Proof. unfold add_fn. keeps. Qed.

Lemma keeps_reset self : keeps_tuples (reset self).
Proof. unfold reset. keeps. Qed.

Lemma keeps_remove_fn self name : keeps_tuples (remove_fn self name).
Proof. unfold remove_fn. keeps. Qed.

Lemma keeps_replace_fn self name f : keeps_tuples (replace_fn self name f).
Proof. unfold replace_fn. keeps. Qed.

Lemma keeps_get_summary self : keeps_tuples (get_summary self).
Proof. unfold get_summary. keeps. Qed.

Lemma keeps_mutate self m : keeps_tuples (mutate self m).
Proof.
  destruct m; simpl;
    [apply keeps_add_fn | apply keeps_reset | apply keeps_remove_fn
    | apply keeps_replace_fn].
Qed.

Lemma tuples_kept_mutate_all self ms h :
  tuples_kept h (mutate_all self ms h).
Proof.
  revert h. induction ms as [|m ms IH]; intros h; simpl.
  - apply tuples_kept_refl.
  - eapply tuples_kept_trans; [apply keeps_mutate|apply IH].
Qed.

(** *** The built function reads the store only at its tuple *)

Ltac run_apply_fd :=
  unfold apply_fd, bind, load, lift, store_at, ret, raise, outcome, store.

Lemma apply_fd_sim h1 h2 s1 s2 (d : gmap string Any) fd
    (out : gmap string Tensor) :
  h1 !! s1 = Some (ObjDict d) → h2 !! s2 = Some (ObjDict d) →
  outcome (apply_fd s1 fd out h1) = outcome (apply_fd s2 fd out h2) ∧
  ∃ d', store (apply_fd s1 fd out h1) !! s1 = Some (ObjDict d') ∧
        store (apply_fd s2 fd out h2) !! s2 = Some (ObjDict d').
Proof.
  intros H1 H2. run_apply_fd.
  destruct (truthy (feature_name fd)) as [name|], (stateful fd).
  - destruct (out !! name) as [x|]; simpl; [|eauto].
    rewrite H1, H2.
    destruct (call_feature_state (fn fd) x d) as [[y d']|e]; simpl; [|eauto].
    rewrite !lookup_insert_eq. eauto.
  - destruct (out !! name) as [x|]; simpl; [|eauto].
    destruct (call_feature (fn fd) x) as [y|e]; simpl; eauto.
  - rewrite H1, H2.
    destruct (call_dict_state (fn fd) out d) as [[y d']|e]; simpl; [|eauto].
    rewrite !lookup_insert_eq. eauto.
  - destruct (call_dict (fn fd) out) as [y|e]; simpl; eauto.
Qed.

Lemma for_each_apply_fd_sim fds h1 h2 s1 s2 (d : gmap string Any)
    (out : gmap string Tensor) :
  h1 !! s1 = Some (ObjDict d) → h2 !! s2 = Some (ObjDict d) →
  outcome (for_each fds (apply_fd s1) out h1)
  = outcome (for_each fds (apply_fd s2) out h2).
Proof.
  revert h1 h2 d out. induction fds as [|fd fds IH]; intros h1 h2 d out H1 H2.
  - done.
  - simpl. unfold bind.
    destruct (apply_fd_sim h1 h2 s1 s2 d fd out H1 H2)
      as (Hout & d' & Hd1 & Hd2).
    destruct (apply_fd s1 fd out h1) as [[o1|e1] h1'],
             (apply_fd s2 fd out h2) as [[o2|e2] h2'];
      unfold outcome, store in *; simpl in *; simplify_eq; [|done].
    by eapply IH.
Qed.

Lemma apply_fd_keeps s fd (out : gmap string Tensor) :
  keeps_tuples (apply_fd s fd out).
Proof.
  intros h. run_apply_fd.
  destruct (truthy (feature_name fd)) as [name|], (stateful fd).
  - destruct (out !! name) as [x|]; [|apply tuples_kept_refl].
    destruct (h !! s) as [[| | |d]|] eqn:Hs; try apply tuples_kept_refl.
    destruct (call_feature_state (fn fd) x d) as [[y d']|e]; simpl;
      [by eapply tuples_kept_overwrite|apply tuples_kept_refl].
  - destruct (out !! name) as [x|]; [|apply tuples_kept_refl].
    destruct (call_feature (fn fd) x); apply tuples_kept_refl.
  - destruct (h !! s) as [[| | |d]|] eqn:Hs; try apply tuples_kept_refl.
    destruct (call_dict_state (fn fd) out d) as [[y d']|e]; simpl;
      [by eapply tuples_kept_overwrite|apply tuples_kept_refl].
  - destruct (call_dict (fn fd) out); apply tuples_kept_refl.
Qed.

Lemma for_each_keeps {A B} (xs : list A) (body : A → B → M heap B) acc :
  (∀ x b, keeps_tuples (body x b)) → keeps_tuples (for_each xs body acc).
Proof.
  intros Hbody. revert acc. induction xs as [|x xs IH]; intros acc; simpl.
  - apply keeps_ret.
  - apply keeps_bind; [apply Hbody|apply IH].
Qed.

Lemma keeps_process_fn t (x : gmap string Tensor) :
  keeps_tuples (process_fn t x).
Proof.
  unfold process_fn. keeps. apply for_each_keeps. intros. apply apply_fd_keeps.
Qed.

(** The outcome of a call is determined by the items of the tuple. *)
Lemma process_fn_frame h1 h2 t fds (x : gmap string Tensor) :
  h1 !! t = Some (ObjTuple fds) → h2 !! t = Some (ObjTuple fds) →
  outcome (process_fn t x h1) = outcome (process_fn t x h2).
Proof.
  intros H1 H2. unfold process_fn. rewrite !bind_alloc.
  erewrite !bind_items_of by (right; by apply tuples_kept_fresh).
  eapply for_each_apply_fd_sim; apply lookup_insert_eq.
Qed.

Lemma build_inv h self g h1 :
  build self h = (Return g, h1) →
  ∃ l i fds t,
    h !! self = Some (ObjBuilder l i) ∧
    (h !! l = Some (ObjList fds) ∨ h !! l = Some (ObjTuple fds)) ∧
    h !! t = None ∧ h1 = <[t := ObjTuple fds]> h ∧ g = process_fn t.
Proof.
  unfold build, _fns_list, items_of, bind, load, alloc, ret, raise.
  destruct (h !! self) as [[l i| | |]|] eqn:Hs; try done.
  destruct (h !! l) as [[|fds|fds|]|] eqn:Hl; try done.
  all: intros [= <- <-]; exists l, i, fds, (fresh (dom h)).
  all: split_and!; eauto.
  all: apply not_elem_of_dom, is_fresh.
Qed.

Lemma build_tuple h self g h1 :
  build self h = (Return g, h1) →
  ∃ t fds, h1 !! t = Some (ObjTuple fds) ∧ g = process_fn t.
Proof.
  intros (l & i & fds & t & _ & _ & _ & -> & ->)%build_inv.
  exists t, fds. by rewrite lookup_insert_eq.
Qed.

Lemma build_ok h self l i fds :
  h !! self = Some (ObjBuilder l i) → h !! l = Some (ObjList fds) →
  build self h
  = (Return (process_fn (fresh (dom h))),
     <[fresh (dom h) := ObjTuple fds]> h).
Proof.
  intros Hs Hl. unfold build.
  erewrite bind_fns_list by done. erewrite bind_items_of by eauto.
  by rewrite bind_alloc.
Qed.
End BuilderFacts.

(** ** The registry of a builder *)

Section BuilderRegistry.
Import Builder.
Context {Tensor Any : Type}.
Local Abbreviation FD := (_FunctionDescription Tensor Any).
Local Abbreviation heap := (gmap loc (obj Tensor Any)).
Implicit Types (h : heap) (fds pre post : list FD) (fd : FD) (self l : loc).
Implicit Types (f : Fn Tensor Any) (feat before : option string).

Lemma builder_at_update h self l i fds fds' :
  h !! self = Some (ObjBuilder l i) → h !! l = Some (ObjList fds) →
  builder_at (<[l := ObjList fds']> h) self fds' i.
Proof.
  intros Hs Hl. exists l. split; [|apply lookup_insert_eq].
  rewrite lookup_insert_ne; [done|].
  intros ->. by eapply builder_ne_list.
Qed.

Lemma get_summary_copy h self fds idx :
  builder_at h self fds idx →
  get_summary self h
  = (Return (fresh (dom h)), <[fresh (dom h) := ObjList fds]> h).
Proof.
  intros (l & Hs & Hl). unfold get_summary.
  erewrite bind_fns_list by done. by erewrite bind_items_of by eauto.
Qed.

Lemma builder_at_summary h self fds idx :
  builder_at h self fds idx → summary self h = Some fds.
Proof.
  intros Hb. unfold summary. rewrite (get_summary_copy _ _ _ _ Hb).
  by rewrite lookup_insert_eq.
Qed.

Lemma init_builder h :
  ∃ self h', __init__ h = (Return self, h') ∧ builder_at h' self [] 0 ∧
             tuples_kept h h'.
Proof.
  unfold __init__. rewrite bind_alloc. unfold alloc.
  set (l := fresh (dom h)). set (h1 := <[l := ObjList []]> h).
  exists (fresh (dom h1)), (<[fresh (dom h1) := ObjBuilder l 0]> h1).
  split_and!; [done| |].
  - exists l. split; [apply lookup_insert_eq|].
    rewrite lookup_insert_ne; [apply lookup_insert_eq|].
    intros Heq. apply (is_fresh (dom h1)). rewrite Heq.
    apply elem_of_dom. exists (ObjList []). apply lookup_insert_eq.
  - eapply tuples_kept_trans; apply tuples_kept_fresh.
Qed.

Lemma add_fn_append h self fds idx f feat name st before :
  builder_at h self fds idx → name ∉ names fds → truthy before = None →
  ∃ h', add_fn self f feat (Some name) st before h = (Return self, h') ∧
        builder_at h' self
          (fds ++ [{| fn_name := name; fn := f;
                      feature_name := feat; stateful := st |}]) idx.
Proof.
  intros (l & Hs & Hl) Hn Hb. eexists. split.
  - by eapply add_fn_named_append.
  - by eapply builder_at_update.
Qed.

Lemma add_all_append h self fds idx new :
  builder_at h self fds idx → NoDup (names (fds ++ new)) →
  ∃ h', add_all self new h = (Return tt, h') ∧
        builder_at h' self (fds ++ new) idx.
Proof.
  revert h fds. induction new as [|fd new IH]; intros h fds Hb Hnd.
  - exists h. rewrite app_nil_r. done.
  - unfold add_all. simpl. rewrite bind_assoc.
    destruct (add_fn_append h self fds idx (fn fd) (feature_name fd)
                (fn_name fd) (stateful fd) None Hb) as (h1 & Hadd & Hb1).
    { unfold names in *. rewrite map_app in Hnd.
      apply NoDup_app in Hnd as (_ & Hd & _). intros Hin.
      apply (Hd _ Hin). simpl. by left. }
    { done. }
    rewrite (bind_return _ _ _ _ _ Hadd), bind_ret.
    destruct fd as [n g ft s]; simpl in *.
    destruct (IH h1 (fds ++ [{| fn_name := n; fn := g; feature_name := ft;
                                 stateful := s |}])) as (h2 & Hrun & Hb2).
    { done. }
    { by rewrite <- app_assoc. }
    exists h2. unfold add_all in Hrun. rewrite <- app_assoc in Hb2.
    by rewrite Hrun.
Qed.
End BuilderRegistry.

(** ** Registering, replacing and inspecting functions *)

Section BuilderClaims.
Import Builder.
Context {Tensor Any : Type}.
Local Abbreviation FD := (_FunctionDescription Tensor Any).
Local Abbreviation heap := (gmap loc (obj Tensor Any)).
Implicit Types (h : heap) (fds pre post : list FD) (fd : FD) (self l : loc).
Implicit Types (f : Fn Tensor Any) (feat : option string).
Implicit Types (x : gmap string Tensor).

(** X18.  On a new builder, [add_fn] calls with distinct names and no
    [add_before_fn_name] all return and leave [get_summary] returning the
    descriptions in registration order.  On any builder, for a name that is
    not registered: with [add_before_fn_name=None] the description is
    appended; with a non-empty [add_before_fn_name] that names a registered
    function it goes immediately before the first description of that
    name; with a non-empty one that names no registered function the call
    raises [ValueError] and the store is as before. *)
Theorem add_fn_registration_order :
  (∀ h fds, NoDup (names fds) →
     ∃ self h',
       bind __init__ (λ self, bind (add_all self fds) (λ _, ret self)) h
       = (Return self, h') ∧
       summary self h' = Some fds) ∧
  (∀ h self fds idx f feat name st,
     builder_at h self fds idx → name ∉ names fds →
     ∃ h', add_fn self f feat (Some name) st None h = (Return self, h') ∧
           summary self h'
           = Some (fds ++ [{| fn_name := name; fn := f;
                              feature_name := feat; stateful := st |}])) ∧
  (∀ h self pre fd post idx f feat name st b,
     builder_at h self (pre ++ fd :: post) idx →
     name ∉ names (pre ++ fd :: post) →
     b ≠ "" → b ∉ names pre → fn_name fd = b →
     ∃ h', add_fn self f feat (Some name) st (Some b) h = (Return self, h') ∧
           summary self h'
           = Some (pre ++ {| fn_name := name; fn := f;
                             feature_name := feat; stateful := st |}
                       :: fd :: post)) ∧
  (∀ h self fds idx f feat name st b,
     builder_at h self fds idx → name ∉ names fds →
     b ≠ "" → b ∉ names fds →
     add_fn self f feat (Some name) st (Some b) h
     = (Raise (ValueError msg_no_add_before), h)).
Proof.
  split_and!.
  - intros h fds Hnd.
    destruct (init_builder h) as (self & h1 & Hinit & Hb & _).
    destruct (add_all_append h1 self [] 0 fds Hb Hnd) as (h2 & Hadd & Hb2).
    exists self, h2. split.
    + rewrite (bind_return _ _ _ _ _ Hinit).
      by rewrite (bind_return _ _ _ _ _ Hadd).
    + by eapply builder_at_summary.
  - intros h self fds idx f feat name st Hb Hn.
    destruct (add_fn_append h self fds idx f feat name st None Hb Hn)
      as (h' & Hadd & Hb'); [done|].
    exists h'. split; [done|]. by eapply builder_at_summary.
  - intros h self pre fd post idx f feat name st b (l & Hs & Hl) Hn Hb Hpre Hfd.
    eexists. split.
    + eapply add_fn_named_insert; try done.
      simpl. by rewrite decide_False.
    + eapply builder_at_summary. by eapply builder_at_update.
  - intros h self fds idx f feat name st b (l & Hs & Hl) Hn Hb Hnb.
    eapply add_fn_named_unknown; try done.
    simpl. by rewrite decide_False.
Qed.

(** C6.  [add_fn] with an [fn_name] that is already registered raises
    [ValueError] and leaves the whole store, hence the list of
    descriptions and the counter of the builder, as it was. *)
Theorem add_fn_duplicate_name h self fds idx f feat name st before :
  builder_at h self fds idx → name ∈ names fds →
  add_fn self f feat (Some name) st before h
  = (Raise (ValueError (msg_not_unique name)), h) ∧
  summary self h = Some fds.
Proof.
  intros Hb Hin. split; [|by eapply builder_at_summary].
  destruct Hb as (l & Hs & Hl). by eapply add_fn_dup.
Qed.

(** C8.  [replace_fn] on a name that is not registered raises [ValueError]
    and leaves the store as it was; on a registered name it puts the new
    function into the first description of that name, which keeps its
    place, its [fn_name], its [feature_name] and its [stateful] flag, and
    all other descriptions and the counter are as before. *)
Theorem replace_fn_in_place :
  (∀ h self fds idx name f,
     builder_at h self fds idx → name ∉ names fds →
     replace_fn self name f h
     = (Raise (ValueError (msg_not_exist name)), h)) ∧
  (∀ h self pre fd post idx name f,
     builder_at h self (pre ++ fd :: post) idx →
     name ∉ names pre → fn_name fd = name →
     ∃ h', replace_fn self name f h = (Return self, h') ∧
           builder_at h' self
             (pre ++ {| fn_name := fn_name fd; fn := f;
                        feature_name := feature_name fd;
                        stateful := stateful fd |} :: post) idx).
Proof.
  split.
  - intros h self fds idx name f (l & Hs & Hl) Hn.
    by eapply replace_fn_unknown.
  - intros h self pre fd post idx name f (l & Hs & Hl) Hpre Hfd.
    eexists. split; [by eapply replace_fn_known|].
    by eapply builder_at_update.
Qed.

(** *** The built function *)

(** C1.  The function returned by [build] behaves as it did right after
    the build, whatever calls of [add_fn], [reset], [remove_fn] and
    [replace_fn] are made on the builder afterwards. *)
Theorem build_snapshot h self process h1 (ms : list (mutation Tensor Any)) x :
  build self h = (Return process, h1) →
  outcome (process x (mutate_all self ms h1)) = outcome (process x h1).
Proof.
  intros (t & fds & Ht & ->)%build_tuple.
  symmetry. eapply process_fn_frame; [done|].
  by apply tuples_kept_mutate_all.
Qed.

(** C10.  A call of the built function allocates its state dictionary at a
    location that is new in the store and holds the empty dictionary, and
    the outcome of a call does not depend on the calls made before it. *)
Theorem process_fn_state_isolation h self process h1 h2 x1 x2 :
  build self h = (Return process, h1) → tuples_kept h1 h2 →
  (∃ t state,
     h2 !! state = None ∧
     process x1 h2
     = bind (items_of t) (λ fds, for_each fds (apply_fd state) x1)
         (<[state := ObjDict ∅]> h2)) ∧
  outcome (process x2 (store (process x1 h2))) = outcome (process x2 h2).
Proof.
  intros (t & fds & Ht & ->)%build_tuple Hkept. split.
  - exists t, (fresh (dom h2)). split; [|done].
    apply not_elem_of_dom, is_fresh.
  - symmetry. eapply process_fn_frame; [by apply Hkept|].
    apply keeps_process_fn. by apply Hkept.
Qed.
End BuilderClaims.

(** ** Exceptions of the built function *)

Section BuilderExceptions.
Import Builder.
Context {Tensor Any : Type}.
Local Abbreviation FD := (_FunctionDescription Tensor Any).
Local Abbreviation heap := (gmap loc (obj Tensor Any)).
Implicit Types (h : heap) (fds pre post : list FD) (fd : FD) (self l : loc).
Implicit Types (x out : gmap string Tensor) (d : gmap string Any).

Lemma lookup_raises_truthy fd out e :
  lookup_raises fd out e ↔
  ∃ name, truthy (feature_name fd) = Some name ∧ out !! name = None ∧
          e = KeyError (StrKey name).
Proof.
  unfold lookup_raises, truthy. split.
  - intros (name & -> & Hne & Hout & ->). exists name.
    by rewrite decide_False.
  - intros (name & Ht & Hout & ->). destruct (feature_name fd) as [n|]; [|done].
    case_decide; simplify_eq. by exists name.
Qed.

(** A step raises exactly the exception of the call it makes, or the
    [KeyError] of the lookup of its feature. *)
Lemma apply_fd_raises h s d fd out e :
  h !! s = Some (ObjDict d) →
  outcome (apply_fd s fd out h) = Raise e ↔
  call_raises fd out d e ∨ lookup_raises fd out e.
Proof.
  intros Hs. rewrite lookup_raises_truthy.
  unfold apply_fd, bind, load, lift, store_at, ret, raise, outcome.
  unfold call_raises.
  destruct (truthy (feature_name fd)) as [name|], (stateful fd).
  - destruct (out !! name) as [v|] eqn:Hv.
    + rewrite Hs.
      destruct (call_feature_state (fn fd) v d) as [[y d']|e'] eqn:Hc; simpl.
      * split; [done|]. intros [?|(n & ? & ? & ?)]; simplify_eq.
      * split; [intros [= <-]; by left|].
        intros [?|(n & ? & ? & ?)]; by simplify_eq.
    + simpl. split.
      * intros [= <-]. right. by exists name.
      * intros [[]|(n & ? & ? & ?)]. by simplify_eq.
  - destruct (out !! name) as [v|] eqn:Hv.
    + destruct (call_feature (fn fd) v) as [y|e'] eqn:Hc; simpl.
      * split; [done|]. intros [?|(n & ? & ? & ?)]; simplify_eq.
      * split; [intros [= <-]; by left|].
        intros [?|(n & ? & ? & ?)]; by simplify_eq.
    + simpl. split.
      * intros [= <-]. right. by exists name.
      * intros [[]|(n & ? & ? & ?)]. by simplify_eq.
  - rewrite Hs.
    destruct (call_dict_state (fn fd) out d) as [[y d']|e'] eqn:Hc; simpl.
    + split; [done|]. intros [?|(n & ? & ? & ?)]; simplify_eq.
    + split; [intros [= <-]; by left|].
      intros [?|(n & ? & ? & ?)]; by simplify_eq.
  - destruct (call_dict (fn fd) out) as [y|e'] eqn:Hc; simpl.
    + split; [done|]. intros [?|(n & ? & ? & ?)]; simplify_eq.
    + split; [intros [= <-]; by left|].
      intros [?|(n & ? & ? & ?)]; by simplify_eq.
Qed.

(** The loop raises exactly what the first step that raises does, on the
    features and the state that the steps before it have left. *)
Lemma for_each_apply_fd_raises fds h s d out e :
  h !! s = Some (ObjDict d) →
  outcome (for_each fds (apply_fd s) out h) = Raise e ↔
  ∃ pre fd post out' h' d',
    fds = pre ++ fd :: post ∧
    for_each pre (apply_fd s) out h = (Return out', h') ∧
    h' !! s = Some (ObjDict d') ∧
    (call_raises fd out' d' e ∨ lookup_raises fd out' e).
Proof.
  revert h d out. induction fds as [|fd fds IH]; intros h d out Hs.
  - split; [done|]. intros (pre & fd & post & ? & ? & ? & Heq & _).
    by destruct pre.
  - destruct (apply_fd_sim h h s s d fd out Hs Hs) as (_ & d1 & Hd1 & _).
    pose proof (apply_fd_raises h s d fd out e Hs) as Hfd.
    cbn [for_each].
    destruct (apply_fd s fd out h) as [[out1|e1] h1] eqn:Hstep.
    + rewrite (bind_return _ _ _ _ _ Hstep). unfold store in Hd1. simpl in Hd1.
      rewrite (IH h1 d1 out1 Hd1). split.
      * intros (pre & fd' & post & out' & h' & d' & -> & Hpre & Hd' & Hcause).
        exists (fd :: pre), fd', post, out', h', d'. split_and!; try done.
        cbn [for_each]. by rewrite (bind_return _ _ _ _ _ Hstep).
      * intros (pre & fd' & post & out' & h' & d' & Heq & Hpre & Hd' & Hcause).
        destruct pre as [|p pre]; simpl in Heq; simplify_eq.
        -- cbn [for_each] in Hpre. unfold ret in Hpre. simplify_eq.
           apply Hfd in Hcause. by unfold outcome in Hcause.
        -- cbn [for_each] in Hpre.
           rewrite (bind_return _ _ _ _ _ Hstep) in Hpre.
           by exists pre, fd', post, out', h', d'.
    + rewrite (bind_raised _ _ _ _ _ Hstep). unfold outcome at 1. simpl.
      split.
      * intros [= <-]. exists [], fd, fds, out, h, d.
        split_and!; try done. by apply Hfd.
      * intros (pre & fd' & post & out' & h' & d' & Heq & Hpre & Hd' & Hcause).
        destruct pre as [|p pre]; simpl in Heq; simplify_eq.
        -- cbn [for_each] in Hpre. unfold ret in Hpre. simplify_eq.
           apply Hfd in Hcause. unfold outcome in Hcause. by simplify_eq.
        -- cbn [for_each] in Hpre.
           by rewrite (bind_raised _ _ _ _ _ Hstep) in Hpre.
Qed.

(** C9 (as amended).  A call of the built function raises [e] exactly
    when, after the descriptions before some description [fd] have
    returned, either the call of the callable of [fd] that the flags of
    [fd] select, on the features and the state left at that point, raises
    [e], or [e] is the [KeyError] of the non-empty [feature_name] of [fd],
    which is not a key of the features at that point.  An exception of a
    registered callable is thus passed on as it is, and the only exception
    of the built function itself is that [KeyError]. *)
Theorem process_fn_exceptions h self fds idx process h1 h2 x e :
  builder_at h self fds idx →
  build self h = (Return process, h1) → tuples_kept h1 h2 →
  outcome (process x h2) = Raise e ↔
  ∃ pre fd post out h' d,
    fds = pre ++ fd :: post ∧
    for_each pre (apply_fd (fresh (dom h2))) x
      (<[fresh (dom h2) := ObjDict ∅]> h2) = (Return out, h') ∧
    h' !! fresh (dom h2) = Some (ObjDict d) ∧
    (call_raises fd out d e ∨ lookup_raises fd out e).
Proof.
  intros (l & Hs & Hl) Hbuild Hkept.
  rewrite (build_ok _ _ _ _ _ Hs Hl) in Hbuild. simplify_eq.
  unfold process_fn. rewrite bind_alloc.
  erewrite bind_items_of
    by (right; apply tuples_kept_fresh, Hkept, lookup_insert_eq).
  apply (for_each_apply_fd_raises fds _ _ ∅). apply lookup_insert_eq.
Qed.

(** The generated name of [add_fn] is [fn_] followed by the counter; when
    that name is registered the call raises, and the counter has already
    been incremented. *)
Lemma add_fn_generated_name_taken h self l fds idx
    (f : Fn Tensor Any) feat st before :
  h !! self = Some (ObjBuilder l idx) → h !! l = Some (ObjList fds) →
  "fn_" +:+ pretty idx ∈ names fds →
  add_fn self f feat None st before h
  = (Raise (ValueError (msg_not_unique ("fn_" +:+ pretty idx))),
     <[self := ObjBuilder l (idx + 1)]> h).
Proof.
  intros Hs Hl Hin. unfold add_fn.
  rewrite bind_assoc. erewrite bind_fn_idx by done.
  rewrite bind_assoc. erewrite bind_set_fn_idx by done.
  rewrite bind_ret.
  assert (self ≠ l) by by eapply builder_ne_list.
  erewrite bind_fns_list by apply lookup_insert_eq.
  erewrite bind_items_of by (left; by rewrite lookup_insert_ne).
  by rewrite decide_True.
Qed.
End BuilderExceptions.

(** ** The builder on sample processors *)

Section BuilderExamples.
Import Builder Examples.

Example double_then_add_one :
  outcome (build_and_call self0 {["n" := 3%Z]}
             (with_steps [("double", double); ("add_one", add_one)]))
  = Return {["n" := 7%Z]}.
Proof. vm_compute. reflexivity. Qed.

Example add_one_then_double :
  outcome (build_and_call self0 {["n" := 3%Z]}
             (with_steps [("add_one", add_one); ("double", double)]))
  = Return {["n" := 8%Z]}.
Proof. vm_compute. reflexivity. Qed.

Example with_steps_builder :
  builder_at (with_steps [("A", double); ("B", add_one); ("C", double)])
    self0 [step "A" double; step "B" add_one; step "C" double] 0.
Proof. exists 1%positive. split; vm_compute; reflexivity. Qed.

Example stateful_pair_shares_state :
  outcome (build_and_call self0 {["n" := 1%Z]} stateful_pair)
  = Return (<["out" := 5%Z]> {["n" := 1%Z]}).
Proof. vm_compute. reflexivity. Qed.

(** C7.  After [add_fn(double, 'n', fn_name='fn_0')] on a new builder,
    [add_fn(add_one, 'n')] without [fn_name] generates the name [fn_0]
    again and raises [ValueError]; the counter stays incremented. *)
Theorem add_fn_generated_name_collides :
  add_fn self0 add_one (Some "n") None false None
    (with_steps [("fn_0", double)])
  = (Raise (ValueError "Given `fn_name` fn_0 is not unique."),
     <[self0 := ObjBuilder 1%positive 1]> (with_steps [("fn_0", double)])).
Proof. vm_compute. reflexivity. Qed.

(** C5.  [add_fn] with [add_before_fn_name=''] neither raises nor
    inserts: on a builder with the one function [A], where [''] names no
    function, the call returns with the description appended; and on a
    builder whose first function is named [''], the description is
    appended after [A] and not put before the function named ['']. *)
Theorem add_fn_empty_add_before_appends :
  (("" ∉ names [step "A" double]) ∧
   add_fn self0 add_one (Some "n") (Some "B") false (Some "")
     (with_steps [("A", double)])
   = (Return self0, with_steps [("A", double); ("B", add_one)])) ∧
  (("" ∈ names [step "" double; step "A" double]) ∧
   add_fn self0 add_one (Some "n") (Some "B") false (Some "")
     (with_steps [("", double); ("A", double)])
   = (Return self0,
      with_steps [("", double); ("A", double); ("B", add_one)])).
Proof.
  split_and!; try (vm_compute; reflexivity).
  - apply (bool_decide_unpack _). vm_compute. exact I.
  - by left.
Qed.

Lemma add_fn_registration_order_witness :
  (∃ self h',
     bind __init__
       (λ self, bind (add_all self [step "A" double; step "B" add_one;
                                    step "C" double])
                  (λ _, ret self)) ∅
     = (Return self, h') ∧
     summary self h'
     = Some [step "A" double; step "B" add_one; step "C" double]) ∧
  (∃ h', add_fn self0 double (Some "n") (Some "C") false None
           (with_steps [("A", double); ("B", add_one)])
         = (Return self0, h') ∧
         summary self0 h'
         = Some ([step "A" double; step "B" add_one] ++ [step "C" double])) ∧
  (∃ h', add_fn self0 add_one (Some "n") (Some "D") false (Some "B")
           (with_steps [("A", double); ("B", add_one); ("C", double)])
         = (Return self0, h') ∧
         summary self0 h'
         = Some ([step "A" double]
                 ++ step "D" add_one
                    :: step "B" add_one :: [step "C" double])) ∧
  add_fn self0 add_one (Some "n") (Some "D") false (Some "Z")
    (with_steps [("A", double); ("B", add_one); ("C", double)])
  = (Raise (ValueError msg_no_add_before),
     with_steps [("A", double); ("B", add_one); ("C", double)]).
Proof.
  split_and!.
  - apply (proj1 add_fn_registration_order ∅
             [step "A" double; step "B" add_one; step "C" double]).
    apply (bool_decide_unpack _). vm_compute. exact I.
  - apply (proj1 (proj2 add_fn_registration_order)
             (with_steps [("A", double); ("B", add_one)]) self0
             [step "A" double; step "B" add_one] 0
             double (Some "n") "C" false).
    + exists 1%positive. split; vm_compute; reflexivity.
    + apply (bool_decide_unpack _). vm_compute. exact I.
  - apply (proj1 (proj2 (proj2 add_fn_registration_order))
             (with_steps [("A", double); ("B", add_one); ("C", double)])
             self0 [step "A" double] (step "B" add_one) [step "C" double] 0
             add_one (Some "n") "D" false "B").
    + exists 1%positive. split; vm_compute; reflexivity.
    + apply (bool_decide_unpack _). vm_compute. exact I.
    + discriminate.
    + apply (bool_decide_unpack _). vm_compute. exact I.
    + reflexivity.
  - apply (proj2 (proj2 (proj2 add_fn_registration_order))
             (with_steps [("A", double); ("B", add_one); ("C", double)])
             self0 [step "A" double; step "B" add_one; step "C" double] 0
             add_one (Some "n") "D" false "Z").
    + exists 1%positive. split; vm_compute; reflexivity.
    + apply (bool_decide_unpack _). vm_compute. exact I.
    + discriminate.
    + apply (bool_decide_unpack _). vm_compute. exact I.
Defined.

Lemma add_fn_duplicate_name_witness :
  add_fn self0 add_one (Some "n") (Some "A") false None
    (with_steps [("A", double); ("B", add_one)])
  = (Raise (ValueError (msg_not_unique "A")),
     with_steps [("A", double); ("B", add_one)]) ∧
  summary self0 (with_steps [("A", double); ("B", add_one)])
  = Some [step "A" double; step "B" add_one].
Proof.
  apply (add_fn_duplicate_name
           (with_steps [("A", double); ("B", add_one)]) self0
           [step "A" double; step "B" add_one] 0).
  - exists 1%positive. split; vm_compute; reflexivity.
  - apply (bool_decide_unpack _). vm_compute. exact I.
Defined.

Lemma replace_fn_in_place_witness :
  ∃ h', replace_fn self0 "B" double
          (with_steps [("A", double); ("B", add_one); ("C", double)])
        = (Return self0, h') ∧
        builder_at h' self0
          [step "A" double; step "B" double; step "C" double] 0.
Proof.
  apply (proj2 replace_fn_in_place
           (with_steps [("A", double); ("B", add_one); ("C", double)])
           self0 [step "A" double] (step "B" add_one) [step "C" double] 0
           "B" double).
  - exists 1%positive. split; vm_compute; reflexivity.
  - apply (bool_decide_unpack _). vm_compute. exact I.
  - reflexivity.
Defined.

Lemma build_snapshot_witness :
  outcome (process_fn 3%positive {["n" := 3%Z]}
             (mutate_all self0
                [Replace_fn "double" add_one; Remove_fn "add_one";
                 Add_fn double (Some "n") None false None; Reset]
                (store (build self0
                   (with_steps [("double", double); ("add_one", add_one)])))))
  = outcome (process_fn 3%positive {["n" := 3%Z]}
               (store (build self0
                  (with_steps [("double", double); ("add_one", add_one)])))).
Proof.
  apply (build_snapshot
           (with_steps [("double", double); ("add_one", add_one)]) self0).
  vm_compute. reflexivity.
Defined.

Lemma process_fn_state_isolation_witness :
  outcome (process_fn 3%positive {["n" := 2%Z]}
             (store (process_fn 3%positive {["n" := 1%Z]}
                       (store (build self0 stateful_pair)))))
  = outcome (process_fn 3%positive {["n" := 2%Z]}
               (store (build self0 stateful_pair))).
Proof.
  apply (process_fn_state_isolation stateful_pair self0
           (process_fn 3%positive) (store (build self0 stateful_pair))
           (store (build self0 stateful_pair))
           {["n" := 1%Z]} {["n" := 2%Z]}).
  - vm_compute. reflexivity.
  - apply tuples_kept_refl.
Defined.

(** C9, as stated, fails: the call that the built function makes for the
    one registered function never raises, and the built function raises
    [KeyError] on a dictionary without its feature. *)
Lemma process_fn_missing_feature :
  outcome (build_and_call self0 ∅ (with_steps [("double", double)]))
  = Raise (KeyError (StrKey "n")) ∧
  ∀ out d e, ¬ call_raises (step "double" double) out d e.
Proof.
  split; [vm_compute; reflexivity|].
  intros out d e Hcall. unfold call_raises in Hcall. simpl in Hcall.
  destruct (out !! "n"); [discriminate Hcall|exact Hcall].
Qed.

Lemma process_fn_exceptions_witness :
  ∃ pre fd post out h' d,
    [{| fn_name := "read_k"; fn := read_k; feature_name := None;
        stateful := true |}] = pre ++ fd :: post ∧
    for_each pre (apply_fd 4%positive) {["n" := 1%Z]}
      (<[4%positive := ObjDict ∅]>
         (store (build self0
                   (store (add_fn self0 read_k None (Some "read_k") true None
                             h0)))))
    = (Return out, h') ∧
    h' !! 4%positive = Some (ObjDict d) ∧
    (call_raises fd out d (KeyError (StrKey "k")) ∨
     lookup_raises fd out (KeyError (StrKey "k"))).
Proof.
  apply (process_fn_exceptions
           (store (add_fn self0 read_k None (Some "read_k") true None h0))
           self0
           [{| fn_name := "read_k"; fn := read_k; feature_name := None;
               stateful := true |}] 0 (process_fn 3%positive)
           (store (build self0
                     (store (add_fn self0 read_k None (Some "read_k") true
                               None h0))))
           (store (build self0
                     (store (add_fn self0 read_k None (Some "read_k") true
                               None h0))))
           {["n" := 1%Z]} (KeyError (StrKey "k"))).
  - exists 1%positive. split; vm_compute; reflexivity.
  - vm_compute. reflexivity.
  - apply tuples_kept_refl.
  - vm_compute. reflexivity.
Defined.
End BuilderExamples.

(** ** Loops *)

Section Loops.
Context {S A B : Type}.
Implicit Types (xs ys : list A) (body : A → B → M S B) (acc : B) (s : S).

Lemma bind_get {C} (k : S → M S C) s : bind get k s = k s s.
Proof. reflexivity. Qed.

Lemma bind_put {C} (k : unit → M S C) s s' : bind (put s') k s = k tt s'.
Proof. reflexivity. Qed.

Lemma for_each_app xs ys body acc s :
  for_each (xs ++ ys) body acc s
  = bind (for_each xs body acc) (λ acc', for_each ys body acc') s.
Proof.
  revert acc s. induction xs as [|x xs IH]; intros acc s; simpl.
  - done.
  - rewrite bind_assoc.
    destruct (body x acc s) as [[b|e] s'] eqn:Hx.
    + rewrite !(bind_return _ _ _ _ _ Hx). apply IH.
    + by rewrite !(bind_raised _ _ _ _ _ Hx).
Qed.

(** A loop whose body returns, keeps the store and keeps [I], returns,
    keeps the store and keeps [I]. *)
Lemma for_each_invariant (I : B → Prop) xs body acc s :
  (∀ x b, x ∈ xs → I b → ∃ b', body x b s = (Return b', s) ∧ I b') →
  I acc →
  ∃ b, for_each xs body acc s = (Return b, s) ∧ I b.
Proof.
  revert acc. induction xs as [|x xs IH]; intros acc Hbody Hacc; simpl.
  - by exists acc.
  - destruct (Hbody x acc) as (b' & Hrun & Hb'); [by left|done|].
    rewrite (bind_return _ _ _ _ _ Hrun).
    apply IH; [|done]. intros y b Hy. apply Hbody. by right.
Qed.
End Loops.

(** The loop of [parse_feature] over the lists of output names raises when
    one of them holds the name, and does nothing otherwise. *)
Lemma name_check_loop {S} (o : string) (e : exn) (ls : list (list string))
    (s : S) :
  for_each ls (λ name_list _, if decide (o ∈ name_list) then raise e else ret tt)
    tt s
  = (if decide (Exists (λ name_list, o ∈ name_list) ls)
     then Raise e else Return tt, s).
Proof.
  induction ls as [|l ls IH].
  - done.
  - cbn [for_each]. destruct (decide (o ∈ l)) as [Hin|Hin].
    + rewrite bind_raise.
      destruct (decide (Exists (λ name_list, o ∈ name_list) (l :: ls)))
        as [_|Hex]; [done|].
      destruct Hex. by left.
    + rewrite bind_ret, IH.
      destruct (decide (Exists (λ name_list, o ∈ name_list) ls)) as [Hex|Hex];
        destruct (decide (Exists (λ name_list, o ∈ name_list) (l :: ls)))
          as [Hex'|Hex']; try done.
      * destruct Hex'. by right.
      * by apply Exists_cons in Hex' as [?|?].
Qed.

(** The loop that stores one parsed value under each of its output names. *)
Lemma rename_loop {S Tensor} (y : Tensor) (output_names : list string)
    (output : gmap string Tensor) (s : S) :
  ∃ output',
    for_each output_names
      (λ output_name output, ret (<[output_name := y]> output)) output s
    = (Return output', s) ∧
    ∀ o, output' !! o
         = if decide (o ∈ output_names) then Some y else output !! o.
Proof.
  revert output. induction output_names as [|n ns IH]; intros output;
    cbn [for_each].
  - exists output. split; [done|]. intros o.
    destruct (decide (o ∈ [])) as [Hin|_]; [|done]. by apply elem_of_nil in Hin.
  - rewrite bind_ret. destruct (IH (<[n := y]> output)) as (out' & -> & Hout).
    exists out'. split; [done|]. intros o. rewrite Hout.
    destruct (decide (o ∈ ns)) as [Hin|Hin];
      destruct (decide (o ∈ n :: ns)) as [Hin'|Hin']; try done.
    + destruct Hin'. by right.
    + apply elem_of_cons in Hin' as [->|?]; [|done]. apply lookup_insert_eq.
    + apply lookup_insert_ne. intros ->. apply Hin'. by left.
Qed.

(** ** The schema of the [tf.train.Example] parser builder *)

Section ExampleParserFacts.
Import ExampleParserBuilder.
Context {FeatureType : Type} `{!EqDecision FeatureType}.
Local Abbreviation t := (ExampleParserBuilder.t FeatureType).
Implicit Types (self s : t) (k o : string) (ty : FeatureType).
Implicit Types (out : option string).

Lemma registered_values s o :
  Exists (λ name_list, o ∈ name_list) (values (_name_dict s))
  ↔ registered s o.
Proof.
  unfold values, registered. rewrite Exists_exists. split.
  - intros (nl & Hnl & Ho). apply list_elem_of_fmap in Hnl as ([k nl'] & -> & Hk).
    apply elem_of_map_to_list in Hk. eauto.
  - intros (k & nl & Hk & Ho). exists nl. split; [|done].
    apply list_elem_of_fmap. exists (k, nl). split; [done|].
    by apply elem_of_map_to_list.
Qed.

(** The instance after a call of [parse_feature] that returns. *)
Lemma parse_feature_returns s k ty out :
  ¬ registered s (or_else out k) →
  (∀ ty', _features s !! k = Some ty' → ty' = ty) →
  parse_feature k ty out s
  = (Return tt,
     {| _features := <[k := ty]> (_features s);
        _name_dict :=
          <[k := default [] (_name_dict s !! k) ++ [or_else out k]]>
            (_name_dict s) |}).
Proof.
  intros Hreg Hty. unfold parse_feature. lazy zeta.
  rewrite bind_get.
  erewrite bind_return.
  2:{ rewrite name_check_loop. rewrite decide_False; [done|].
      by rewrite registered_values. }
  rewrite bind_get.
  assert (∃ s1, s1 = {| _features := <[k := ty]> (_features s);
                        _name_dict := _name_dict s |}) as [s1 Hs1] by eauto.
  erewrite (bind_return _ _ s tt s1).
  2:{ destruct (_features s !! k) as [ty'|] eqn:Hk.
      - rewrite (Hty ty' eq_refl). rewrite decide_False by (by intros []).
        rewrite Hs1. unfold ret. f_equal. destruct s as [fs nd]; simpl in *.
        f_equal. symmetry. apply insert_id. by rewrite (Hty ty' eq_refl) in Hk.
      - by rewrite Hs1. }
  subst s1. rewrite bind_get. simpl.
  destruct (decide (k ∉ dom (_name_dict s))) as [Hdom|Hdom].
  - apply not_elem_of_dom in Hdom. rewrite Hdom. simpl.
    unfold set_name_dict. rewrite bind_assoc, bind_get, bind_put. simpl.
    rewrite bind_get. simpl. rewrite lookup_insert_eq.
    rewrite bind_get. unfold put. simpl. by rewrite insert_insert_eq.
  - rewrite bind_ret, bind_get. simpl.
    destruct (_name_dict s !! k) as [nl|] eqn:Hk.
    + done.
    + destruct Hdom. by apply not_elem_of_dom.
Qed.

Lemma parse_feature_not_unique s k ty out :
  registered s (or_else out k) →
  parse_feature k ty out s
  = (Raise (ValueError (msg_not_unique (or_else out k))), s).
Proof.
  intros Hreg. unfold parse_feature. lazy zeta. rewrite bind_get.
  erewrite bind_raised; [done|].
  rewrite name_check_loop. rewrite decide_True; [done|].
  by rewrite registered_values.
Qed.

Lemma parse_feature_different_type s k ty ty' out :
  ¬ registered s (or_else out k) →
  _features s !! k = Some ty' → ty' ≠ ty →
  parse_feature k ty out s
  = (Raise (ValueError (msg_different_type k)), s).
Proof.
  intros Hreg Hk Hne. unfold parse_feature. lazy zeta. rewrite bind_get.
  erewrite bind_return.
  2:{ rewrite name_check_loop. rewrite decide_False; [done|].
      by rewrite registered_values. }
  rewrite bind_get. rewrite Hk. by rewrite decide_True.
Qed.

(** A call either raises and leaves the instance as it was, or returns. *)
Lemma parse_feature_cases s k ty out :
  (∃ msg, parse_feature k ty out s = (Raise (ValueError msg), s)) ∨
  (¬ registered s (or_else out k) ∧
   (∀ ty', _features s !! k = Some ty' → ty' = ty) ∧
   parse_feature k ty out s
   = (Return tt,
      {| _features := <[k := ty]> (_features s);
         _name_dict :=
           <[k := default [] (_name_dict s !! k) ++ [or_else out k]]>
             (_name_dict s) |})).
Proof.
  destruct (decide (Exists (λ nl, or_else out k ∈ nl) (values (_name_dict s))))
    as [Hreg|Hreg]; rewrite registered_values in Hreg.
  { left. eexists. by apply parse_feature_not_unique. }
  destruct (_features s !! k) as [ty'|] eqn:Hk.
  - destruct (decide (ty' = ty)) as [->|Hne].
    + right. split_and!; [done|by intros ? [= <-]|].
      apply parse_feature_returns; [done|]. intros ? ?. by simplify_eq.
    + left. eexists. by eapply parse_feature_different_type.
  - right. split_and!; [done|by intros ? ?|].
    apply parse_feature_returns; [done|]. intros ? ?. by simplify_eq.
Qed.
End ExampleParserFacts.

Section ExampleParserInvariant.
Import ExampleParserBuilder.
Context {FeatureType : Type} `{!EqDecision FeatureType}.
Local Abbreviation t := (ExampleParserBuilder.t FeatureType).
Implicit Types (self s : t) (k o : string) (ty : FeatureType).
Implicit Types (out : option string).

Lemma consistent_init : consistent (__init__ : t).
Proof.
  split.
  - intros k [ty Hk]. simpl in Hk. by rewrite lookup_empty in Hk.
  - intros k1 k2 l1 l2 o Hk1. simpl in Hk1. by rewrite lookup_empty in Hk1.
Qed.

Lemma consistent_parse_feature s k ty out :
  consistent s → consistent (store (parse_feature k ty out s)).
Proof.
  intros [Hdom Huniq].
  destruct (parse_feature_cases s k ty out) as [[msg ->]|(Hreg & _ & ->)];
    [done|].
  unfold store. simpl. split; simpl.
  - intros k' Hk'. destruct (decide (k = k')) as [<-|Hne].
    + rewrite lookup_insert_eq. eauto.
    + rewrite lookup_insert_ne in Hk' by done.
      rewrite lookup_insert_ne by done. auto.
  - assert (∀ k' l o', _name_dict s !! k' = Some l → o' ∈ l →
              o' ∈ default [] (_name_dict s !! k) ++ [or_else out k] →
              k' = k) as Hnew.
    { intros k' l o' Hk' Ho' [Hold| ->%list_elem_of_singleton]%elem_of_app.
      - destruct (_name_dict s !! k) as [l'|] eqn:Hk; simpl in Hold.
        + by eapply Huniq.
        + by apply elem_of_nil in Hold.
      - destruct Hreg. by exists k', l. }
    intros k1 k2 l1 l2 o' H1 H2 Ho1 Ho2.
    destruct (decide (k = k1)) as [<-|Hne1], (decide (k = k2)) as [<-|Hne2];
      try done.
    + rewrite lookup_insert_eq in H1. rewrite lookup_insert_ne in H2 by done.
      simplify_eq. symmetry. by eapply Hnew.
    + rewrite lookup_insert_eq in H2. rewrite lookup_insert_ne in H1 by done.
      simplify_eq. by eapply Hnew.
    + rewrite lookup_insert_ne in H1, H2 by done. by eapply Huniq.
Qed.

Lemma reachable_consistent s : reachable s → consistent s.
Proof.
  induction 1; [apply consistent_init|by apply consistent_parse_feature].
Qed.
End ExampleParserInvariant.

Section ExampleParserFanOut.
Import ExampleParserBuilder.
Context {Tensor FeatureType : Type} `{!EqDecision FeatureType}.
Variable parse_single_example :
  Tensor → gmap string FeatureType → result (list (string * Tensor)).
Variable identity : Tensor → Tensor.
Local Abbreviation t := (ExampleParserBuilder.t FeatureType).
Implicit Types (self s : t) (k o : string) (v raw : Tensor).
Implicit Types (output : gmap string Tensor).

(** One turn of the loop of [_parse_fn] over the parsed items. *)
Lemma parse_fn_turn s (kf : string * Tensor) names output :
  _name_dict s !! kf.1 = Some names →
  ∃ output',
    (self <- get ;;
     match _name_dict self !! kf.1 with
     | None => raise (KeyError (StrKey kf.1))
     | Some output_names =>
         for_each output_names
           (λ output_name output,
              ret (<[output_name := identity kf.2]> output))
           output
     end) s = (Return output', s) ∧
    ∀ o, output' !! o
         = if decide (o ∈ names) then Some (identity kf.2) else output !! o.
Proof.
  intros Hk. rewrite bind_get, Hk. apply rename_loop.
Qed.

Lemma parse_fn_fan_out s raw parsed k v names o :
  consistent s →
  parse_single_example raw (_features s) = Return parsed →
  NoDup parsed.*1 →
  (∀ k', k' ∈ parsed.*1 → is_Some (_features s !! k')) →
  (k, v) ∈ parsed → _name_dict s !! k = Some names → o ∈ names →
  ∃ output,
    _parse_fn parse_single_example identity raw s = (Return output, s) ∧
    output !! o = Some (identity v).
Proof.
  intros [Hdom Huniq] Hparse Hnd Hkeys Hkv Hk Ho.
  unfold _parse_fn. rewrite bind_get, Hparse, bind_lift_return.
  apply list_elem_of_split in Hkv as (pre & post & ->).
  rewrite for_each_app.
  edestruct (for_each_invariant (S:=t) (λ _ : gmap string Tensor, True) pre)
    as (b0 & Hpre & _); [|done|erewrite bind_return by exact Hpre].
  { intros kf b Hkf _.
    destruct (Hdom kf.1) as [names' Hnames'].
    { apply Hkeys. rewrite fmap_app. apply elem_of_app. left.
      by apply list_elem_of_fmap_2. }
    destruct (parse_fn_turn s kf names' b Hnames') as (b' & Hb' & _).
    eauto. }
  cbn [for_each].
  destruct (parse_fn_turn s (k, v) names b0 Hk) as (b1 & Hb1 & Hlook).
  erewrite bind_return by exact Hb1.
  apply (for_each_invariant (λ b, b !! o = Some (identity v))).
  - intros kf b Hkf Hb.
    destruct (Hdom kf.1) as [names' Hnames'].
    { apply Hkeys. rewrite fmap_app. apply elem_of_app. right. right.
      by apply list_elem_of_fmap_2. }
    destruct (parse_fn_turn s kf names' b Hnames') as (b' & Hb' & Hlook').
    exists b'. split; [done|]. rewrite Hlook'.
    rewrite decide_False; [done|]. intros Ho'.
    assert (kf.1 = k) as Heq by by eapply Huniq.
    rewrite fmap_app in Hnd. apply NoDup_app in Hnd as (_ & _ & Hnd).
    simpl in Hnd. apply NoDup_cons in Hnd as [Hnotin _].
    apply Hnotin. rewrite <- Heq. by apply list_elem_of_fmap_2.
  - rewrite Hlook. by rewrite decide_True.
Qed.
End ExampleParserFanOut.

(** ** The schema of the [tf.train.SequenceExample] parser builder *)

Section SequenceExampleParserFacts.
Import SequenceExampleParserBuilder.
Context {FeatureType : Type} `{!EqDecision FeatureType}.
Local Abbreviation t := (SequenceExampleParserBuilder.t FeatureType).
Implicit Types (self s : t) (k o : string) (c : bool) (ty : FeatureType).
Implicit Types (out : option string).

Lemma seq_registered_values s o :
  Exists (λ name_list, o ∈ name_list) (values (_name_dict s))
  ↔ registered s o.
Proof.
  unfold values, registered. rewrite Exists_exists. split.
  - intros (nl & Hnl & Ho).
    apply list_elem_of_fmap in Hnl as ([key nl'] & -> & Hk).
    apply elem_of_map_to_list in Hk. eauto.
  - intros (key & nl & Hk & Ho). exists nl. split; [|done].
    apply list_elem_of_fmap. exists (key, nl). split; [done|].
    by apply elem_of_map_to_list.
Qed.

Lemma seq_parse_feature_returns s k ty out c :
  ¬ registered s (or_else out k) →
  (∀ ty', _features s !! (k, c) = Some ty' → ty' = ty) →
  parse_feature k ty out c s
  = (Return tt,
     {| _features := <[(k, c) := ty]> (_features s);
        _name_dict :=
          <[(k, c) := default [] (_name_dict s !! (k, c)) ++ [or_else out k]]>
            (_name_dict s) |}).
Proof.
  intros Hreg Hty. unfold parse_feature. lazy zeta.
  rewrite bind_get.
  erewrite bind_return.
  2:{ rewrite name_check_loop. rewrite decide_False; [done|].
      by rewrite seq_registered_values. }
  rewrite bind_get.
  assert (∃ s1, s1 = {| _features := <[(k, c) := ty]> (_features s);
                        _name_dict := _name_dict s |}) as [s1 Hs1] by eauto.
  erewrite (bind_return _ _ s tt s1).
  2:{ destruct (_features s !! (k, c)) as [ty'|] eqn:Hk.
      - rewrite (Hty ty' eq_refl). rewrite decide_False by (by intros []).
        rewrite Hs1. unfold ret. f_equal. destruct s as [fs nd]; simpl in *.
        f_equal. symmetry. apply insert_id. by rewrite (Hty ty' eq_refl) in Hk.
      - by rewrite Hs1. }
  subst s1. rewrite bind_get. simpl.
  destruct (decide ((k, c) ∉ dom (_name_dict s))) as [Hdom|Hdom].
  - apply not_elem_of_dom in Hdom. rewrite Hdom. simpl.
    unfold set_name_dict. rewrite bind_assoc, bind_get, bind_put. simpl.
    rewrite bind_get. simpl. rewrite lookup_insert_eq.
    rewrite bind_get. unfold put. simpl. by rewrite insert_insert_eq.
  - rewrite bind_ret, bind_get. simpl.
    destruct (_name_dict s !! (k, c)) as [nl|] eqn:Hk.
    + done.
    + destruct Hdom. by apply not_elem_of_dom.
Qed.

Lemma seq_parse_feature_not_unique s k ty out c :
  registered s (or_else out k) →
  parse_feature k ty out c s
  = (Raise (ValueError (msg_not_unique (or_else out k))), s).
Proof.
  intros Hreg. unfold parse_feature. lazy zeta. rewrite bind_get.
  erewrite bind_raised; [done|].
  rewrite name_check_loop. rewrite decide_True; [done|].
  by rewrite seq_registered_values.
Qed.

Lemma seq_parse_feature_different_type s k ty ty' out c :
  ¬ registered s (or_else out k) →
  _features s !! (k, c) = Some ty' → ty' ≠ ty →
  parse_feature k ty out c s
  = (Raise (ValueError (msg_different_type k c)), s).
Proof.
  intros Hreg Hk Hne. unfold parse_feature. lazy zeta. rewrite bind_get.
  erewrite bind_return.
  2:{ rewrite name_check_loop. rewrite decide_False; [done|].
      by rewrite seq_registered_values. }
  rewrite bind_get. rewrite Hk. by rewrite decide_True.
Qed.

Lemma seq_parse_feature_cases s k ty out c :
  (∃ msg, parse_feature k ty out c s = (Raise (ValueError msg), s)) ∨
  (¬ registered s (or_else out k) ∧
   (∀ ty', _features s !! (k, c) = Some ty' → ty' = ty) ∧
   parse_feature k ty out c s
   = (Return tt,
      {| _features := <[(k, c) := ty]> (_features s);
         _name_dict :=
           <[(k, c) := default [] (_name_dict s !! (k, c)) ++ [or_else out k]]>
             (_name_dict s) |})).
Proof.
  destruct (decide (Exists (λ nl, or_else out k ∈ nl) (values (_name_dict s))))
    as [Hreg|Hreg]; rewrite seq_registered_values in Hreg.
  { left. eexists. by apply seq_parse_feature_not_unique. }
  destruct (_features s !! (k, c)) as [ty'|] eqn:Hk.
  - destruct (decide (ty' = ty)) as [->|Hne].
    + right. split_and!; [done|by intros ? [= <-]|].
      apply seq_parse_feature_returns; [done|]. intros ? ?. by simplify_eq.
    + left. eexists. by eapply seq_parse_feature_different_type.
  - right. split_and!; [done|by intros ? ?|].
    apply seq_parse_feature_returns; [done|]. intros ? ?. by simplify_eq.
Qed.



End SequenceExampleParserFacts.

Section SequenceExampleParserFanOut.
Import SequenceExampleParserBuilder.
Context {Tensor FeatureType : Type} `{!EqDecision FeatureType}.
Variable parse_single_sequence_example :
  Tensor → gmap string FeatureType → gmap string FeatureType →
  result (list (string * Tensor) * list (string * Tensor)).
Variable identity : Tensor → Tensor.
Local Abbreviation t := (SequenceExampleParserBuilder.t FeatureType).
Implicit Types (self s : t) (k o : string) (c context : bool).
Implicit Types (v raw : Tensor) (output : gmap string Tensor).
Implicit Types (items : list (string * Tensor)).




End SequenceExampleParserFanOut.

(** ** The schema of reachable instances *)

Section Schema.
Context {K : Type} `{Countable K} {T : Type}.
Implicit Types (features : gmap K T) (name_dict : gmap K (list string)).

Lemma schema_ok_empty : schema_ok (∅ : gmap K T) ∅.
Proof.
  split_and!.
  - intros k. rewrite !lookup_empty. split; by intros [? ?].
  - intros k l Hk. by rewrite lookup_empty in Hk.
  - intros k1 k2 l1 l2 o Hk. by rewrite lookup_empty in Hk.
Qed.

Lemma schema_ok_insert features name_dict k (ty : T) o :
  schema_ok features name_dict →
  (∀ k' l, name_dict !! k' = Some l → o ∉ l) →
  schema_ok (<[k := ty]> features)
    (<[k := default [] (name_dict !! k) ++ [o]]> name_dict).
Proof.
  intros (Hdom & Hlists & Huniq) Hnew. split_and!.
  - intros k'. destruct (decide (k = k')) as [<-|Hne].
    + rewrite !lookup_insert_eq. split; eauto.
    + rewrite !lookup_insert_ne by done. apply Hdom.
  - intros k' l. destruct (decide (k = k')) as [<-|Hne].
    + rewrite lookup_insert_eq. intros [= <-]. split.
      * apply NoDup_app. split_and!.
        -- destruct (name_dict !! k) as [l|] eqn:Hk; simpl.
           ++ by apply (Hlists k l).
           ++ apply NoDup_nil_2.
        -- intros o' Ho' ->%list_elem_of_singleton.
           destruct (name_dict !! k) as [l|] eqn:Hk; simpl in Ho'.
           ++ by apply (Hnew k l).
           ++ by apply elem_of_nil in Ho'.
        -- apply NoDup_singleton.
      * by destruct (default [] (name_dict !! k)).
    + rewrite lookup_insert_ne by done. apply Hlists.
  - assert (∀ k' l o', name_dict !! k' = Some l → o' ∈ l →
              o' ∈ default [] (name_dict !! k) ++ [o] → k' = k) as Hk.
    { intros k' l o' Hk' Ho' [Hold| ->%list_elem_of_singleton]%elem_of_app.
      - destruct (name_dict !! k) as [l'|] eqn:Hl; simpl in Hold.
        + by eapply Huniq.
        + by apply elem_of_nil in Hold.
      - by destruct (Hnew k' l Hk'). }
    intros k1 k2 l1 l2 o' H1 H2 Ho1 Ho2.
    destruct (decide (k = k1)) as [<-|Hne1], (decide (k = k2)) as [<-|Hne2];
      try done.
    + rewrite lookup_insert_eq in H1. rewrite lookup_insert_ne in H2 by done.
      simplify_eq. symmetry. by eapply Hk.
    + rewrite lookup_insert_eq in H2. rewrite lookup_insert_ne in H1 by done.
      simplify_eq. by eapply Hk.
    + rewrite lookup_insert_ne in H1, H2 by done. by eapply Huniq.
Qed.
End Schema.

Section ReachableSchema.
Context {FeatureType : Type} `{!EqDecision FeatureType}.



End ReachableSchema.

(** ** Registering features and parsing *)

Section ParserClaims.
Context {Tensor FeatureType : Type} `{!EqDecision FeatureType}.
Local Abbreviation E := (ExampleParserBuilder.t FeatureType).
Local Abbreviation Q := (SequenceExampleParserBuilder.t FeatureType).


End ParserClaims.

Section ParserFanOut.
Context {Tensor FeatureType : Type} `{!EqDecision FeatureType}.
Local Abbreviation E := (ExampleParserBuilder.t FeatureType).
Local Abbreviation Q := (SequenceExampleParserBuilder.t FeatureType).




End ParserFanOut.

(** ** Filters *)

Section FilterFacts.
Import FilterBuilder.
Context {Tensor : Type}.
Local Abbreviation FeaturesDict := (gmap string Tensor).
Local Abbreviation t := (FilterBuilder.t Tensor).
Local Abbreviation FilterFn := (FilterBuilder.FilterFn Tensor).
Implicit Types (s : t) (phase : Phase) (fns : list FilterFn).
Implicit Types (x : FeaturesDict) (p : FeaturesDict → bool).
Implicit Types (ps : list (FeaturesDict → bool)).
Implicit Types (regs : list ((FeaturesDict → bool) * Phase)).

Lemma init_filter_fns phase :
  _filter_fns (__init__ : t) !! phase = Some [].
Proof. by destruct phase. Qed.

Lemma add_filter_fn_appends s (fn : FilterFn) phase fns :
  _filter_fns s !! phase = Some fns →
  add_filter_fn fn phase s
  = (Return tt,
     {| _filter_fns := <[phase := fns ++ [fn]]> (_filter_fns s) |}).
Proof. intros H. unfold add_filter_fn. by rewrite bind_get, H. Qed.

Lemma add_all_appends (rs : list (FilterFn * Phase)) s :
  (∀ phase, is_Some (_filter_fns s !! phase)) →
  ∃ s', add_all rs s = (Return tt, s') ∧
        ∀ phase,
          _filter_fns s' !! phase
          = (λ fns, fns ++ (filter (λ r, r.2 = phase) rs).*1)
              <$> _filter_fns s !! phase.
Proof.
  revert s. induction rs as [|[fn ph] rs IH]; intros s Hall.
  - exists s. split; [done|]. intros phase.
    destruct (_filter_fns s !! phase); simpl; [|done].
    by rewrite app_nil_r.
  - destruct (Hall ph) as [fns Hfns].
    unfold add_all. cbn [for_each fst snd].
    rewrite (bind_return _ _ _ _ _ (add_filter_fn_appends s fn ph fns Hfns)).
    destruct (IH {| _filter_fns := <[ph := fns ++ [fn]]> (_filter_fns s) |})
      as (s' & Hrun & Hs').
    { intros phase. simpl. destruct (decide (ph = phase)) as [<-|Hne].
      - rewrite lookup_insert_eq. eauto.
      - rewrite lookup_insert_ne by done. apply Hall. }
    exists s'. split; [exact Hrun|]. intros phase. rewrite Hs'. simpl.
    destruct (decide (ph = phase)) as [<-|Hne].
    + rewrite lookup_insert_eq, Hfns. simpl.
      rewrite filter_cons_True by done. simpl. by rewrite <- app_assoc.
    + rewrite lookup_insert_ne by done.
      by rewrite filter_cons_False by done.
Qed.

(** The built filter on predicates that always yield their boolean. *)
Lemma filter_fn_pure {S} ps x keep (s : S) :
  for_each (pure_fn <$> ps)
    (λ (fn : FilterFn) keep, b <- lift (fn x) ;; ret (keep && b)) keep s
  = (Return (keep && forallb (λ p, p x) ps), s).
Proof.
  revert keep. induction ps as [|p ps IH]; intros keep; simpl.
  - by rewrite andb_true_r.
  - unfold pure_fn at 1. rewrite bind_assoc, bind_lift_return, bind_ret.
    rewrite IH. by rewrite andb_assoc.
Qed.

Lemma run_filter_conjunction regs phase x :
  run_filter regs phase x
  = Return (forallb (λ p, p x) (registered_for phase regs)).
Proof.
  unfold run_filter.
  destruct (add_all_appends (map (λ r, (pure_fn r.1, r.2)) regs) __init__)
    as (s' & Hrun & Hs').
  { intros ph. rewrite init_filter_fns. eauto. }
  rewrite (bind_return _ _ _ _ _ Hrun).
  unfold build. rewrite bind_assoc, bind_get.
  rewrite Hs', init_filter_fns. simpl. rewrite bind_ret.
  unfold filter_fn, registered_for.
  assert ((filter (λ r : FilterFn * Phase, r.2 = phase)
             (map (λ r, (pure_fn r.1, r.2)) regs)).*1
          = pure_fn <$> (filter (λ r, r.2 = phase) regs).*1) as ->.
  { clear. induction regs as [|[p ph] regs IH]; [done|].
    cbn [map fst snd]. destruct (decide (ph = phase)) as [Heq|Hne].
    - rewrite !filter_cons_True by done. cbn [fmap list_fmap fst].
      f_equal. exact IH.
    - rewrite !filter_cons_False by done. exact IH. }
  by rewrite filter_fn_pure.
Qed.

Lemma forallb_permutation {A} (f : A → bool) (l1 l2 : list A) :
  l1 ≡ₚ l2 → forallb f l1 = forallb f l2.
Proof.
  induction 1 as [|a l1 l2 _ IH|a b l|l1 l2 l3 _ IH1 _ IH2]; simpl.
  - done.
  - by rewrite IH.
  - by rewrite !andb_assoc, (andb_comm (f b)).
  - by rewrite IH1.
Qed.

(** C4.  The filter built for a phase yields the conjunction of the
    predicates registered for that phase on the features dictionary; with
    no predicate registered for the phase it yields [True]; and two
    sequences of registrations that are permutations of each other give
    filters that yield the same boolean. *)
Theorem filter_fn_conjunction :
  (∀ regs phase x,
     run_filter regs phase x
     = Return (forallb (λ p, p x) (registered_for phase regs))) ∧
  (∀ regs phase x,
     registered_for phase regs = [] → run_filter regs phase x = Return true) ∧
  (∀ regs regs' phase x,
     regs ≡ₚ regs' → run_filter regs phase x = run_filter regs' phase x).
Proof.
  split_and!.
  - apply run_filter_conjunction.
  - intros regs phase x Hnone. by rewrite run_filter_conjunction, Hnone.
  - intros regs regs' phase x Hperm. rewrite !run_filter_conjunction.
    f_equal. apply forallb_permutation. unfold registered_for.
    by rewrite Hperm.
Qed.
End FilterFacts.

(** ** The parser and filter builders on samples *)

Section ParserFilterExamples.
Import Examples.

Example register_then_parse :
  outcome
    ((ExampleParserBuilder.parse_feature "a" VarLenFeature (Some "x") ;;
      ExampleParserBuilder.parse_feature "a" VarLenFeature (Some "y") ;;
      ExampleParserBuilder.parse_feature "b" FixedLenFeature None ;;
      parse_fn <- ExampleParserBuilder.build parse_single_example identity ;;
      parse_fn 7%Z) ExampleParserBuilder.__init__)
  = Return (<["b" := 7%Z]> (<["y" := 7%Z]> {["x" := 7%Z]})).
Proof. vm_compute. reflexivity. Qed.






Lemma filter_fn_conjunction_witness :
  FilterBuilder.run_filter [(positive_n, DECODE); (small_n, DECODE)]
    DECODE {["n" := 3%Z]}
  = FilterBuilder.run_filter [(small_n, DECODE); (positive_n, DECODE)]
      DECODE {["n" := 3%Z]}.
Proof.
  apply (proj2 (proj2 filter_fn_conjunction)
           [(positive_n, DECODE); (small_n, DECODE)]
           [(small_n, DECODE); (positive_n, DECODE)] DECODE {["n" := 3%Z]}).
  apply perm_swap.
Defined.
End ParserFilterExamples.

(** * Further properties *)

(** ** Removing, resetting and generated names *)

Section BuilderMore.
Import Builder.
Context {Tensor Any : Type}.
Local Abbreviation FD := (_FunctionDescription Tensor Any).
Local Abbreviation heap := (gmap loc (obj Tensor Any)).
Implicit Types (h : heap) (fds pre post : list FD) (fd : FD) (self l : loc).
Implicit Types (f : Fn Tensor Any) (feat before : option string).

Lemma builder_at_rebind h self l idx fds fds' :
  h !! self = Some (ObjBuilder l idx) →
  builder_at
    (<[self := ObjBuilder (fresh (dom h)) idx]>
       (<[fresh (dom h) := ObjList fds']> h)) self fds' idx.
Proof.
  intros Hs. exists (fresh (dom h)). split; [apply lookup_insert_eq|].
  rewrite lookup_insert_ne; [apply lookup_insert_eq|].
  intros ->. apply (is_fresh (dom h)). apply elem_of_dom. eauto.
Qed.

Lemma remove_fn_run h self l idx fds name :
  h !! self = Some (ObjBuilder l idx) → h !! l = Some (ObjList fds) →
  remove_fn self name h
  = (Return self,
     <[self := ObjBuilder (fresh (dom h)) idx]>
       (<[fresh (dom h) := ObjList (without name fds)]> h)).
Proof.
  intros Hs Hl. unfold remove_fn.
  erewrite bind_fns_list by done. erewrite bind_items_of by eauto.
  rewrite bind_alloc.
  assert (self ≠ fresh (dom h)) as Hne.
  { intros ->. apply (is_fresh (dom h)). apply elem_of_dom. eauto. }
  erewrite bind_set_fns_list by (rewrite lookup_insert_ne by done; exact Hs).
  done.
Qed.

Lemma reset_run h self l idx :
  h !! self = Some (ObjBuilder l idx) →
  reset self h
  = (Return self,
     <[self := ObjBuilder (fresh (dom h)) idx]>
       (<[fresh (dom h) := ObjList []]> h)).
Proof.
  intros Hs. unfold reset. rewrite bind_alloc.
  assert (self ≠ fresh (dom h)) as Hne.
  { intros ->. apply (is_fresh (dom h)). apply elem_of_dom. eauto. }
  erewrite bind_set_fns_list by (rewrite lookup_insert_ne by done; exact Hs).
  done.
Qed.

Lemma without_names name fds : name ∉ names (without name fds).
Proof.
  unfold names, without. intros Hin.
  apply list_elem_of_fmap in Hin as (fd & -> & Hfd).
  by apply list_elem_of_filter in Hfd as [Hne _].
Qed.

Lemma without_absent name fds : name ∉ names fds → without name fds = fds.
Proof.
  unfold names, without. induction fds as [|fd fds IH]; intros Hn; [done|].
  rewrite filter_cons_True.
  - f_equal. apply IH. intros ?. apply Hn. by right.
  - intros Heq. apply Hn. rewrite <- Heq. by left.
Qed.

(** X1.  [remove_fn] never raises.  It leaves the builder with the
    descriptions whose name is not the given one, in their order, and with
    its counter; when the name is not registered the descriptions are the
    same as before. *)
Theorem remove_fn_removes h self fds idx name :
  builder_at h self fds idx →
  ∃ h' fds',
    remove_fn self name h = (Return self, h') ∧
    builder_at h' self fds' idx ∧
    fds' = filter (λ fd, fn_name fd ≠ name) fds ∧
    (name ∉ names fds') ∧
    (name ∉ names fds → fds' = fds).
Proof.
  intros (l & Hs & Hl). eexists _, (without name fds). split_and!.
  - by eapply remove_fn_run.
  - by eapply builder_at_rebind.
  - done.
  - apply without_names.
  - apply without_absent.
Qed.

(** [add_fn] without a name is [add_fn] with the generated name, after the
    counter has been incremented. *)
Lemma add_fn_unnamed h self l idx f feat st before :
  h !! self = Some (ObjBuilder l idx) →
  add_fn self f feat None st before h
  = add_fn self f feat (Some (generated_name idx)) st before
      (<[self := ObjBuilder l (idx + 1)]> h).
Proof.
  intros Hs. unfold add_fn.
  rewrite bind_assoc. erewrite bind_fn_idx by done.
  rewrite bind_assoc. erewrite bind_set_fn_idx by done.
  by rewrite !bind_ret.
Qed.

Lemma builder_at_counter h self l idx idx' fds :
  h !! self = Some (ObjBuilder l idx) → h !! l = Some (ObjList fds) →
  builder_at (<[self := ObjBuilder l idx']> h) self fds idx'.
Proof.
  intros Hs Hl. exists l. split; [apply lookup_insert_eq|].
  rewrite lookup_insert_ne; [done|]. by eapply builder_ne_list.
Qed.

Lemma generated_name_inj i j : generated_name i = generated_name j → i = j.
Proof.
  unfold generated_name. intros H. simpl in H. injection H as H.
  by apply (inj pretty).
Qed.

Lemma add_fn_unnamed_append h self fds idx f feat st :
  builder_at h self fds idx → generated_name idx ∉ names fds →
  ∃ h', add_fn self f feat None st None h = (Return self, h') ∧
        builder_at h' self
          (fds ++ [{| fn_name := "fn_" +:+ pretty idx; fn := f;
                      feature_name := feat; stateful := st |}]) (idx + 1).
Proof.
  intros (l & Hs & Hl) Hn.
  rewrite (add_fn_unnamed _ _ _ _ _ _ _ _ Hs).
  destruct (builder_at_counter h self l idx (idx + 1) fds Hs Hl)
    as (l' & Hs' & Hl').
  eexists. split.
  - by eapply add_fn_named_append.
  - by eapply builder_at_update.
Qed.

(** X2.  When the generated name is not registered, [add_fn] without
    [fn_name] and without [add_before_fn_name] returns: it appends a
    description named [fn_] followed by the counter and increments the
    counter. *)
Theorem add_fn_generates_name h self fds idx f feat st :
  builder_at h self fds idx → "fn_" +:+ pretty idx ∉ names fds →
  ∃ h', add_fn self f feat None st None h = (Return self, h') ∧
        builder_at h' self
          (fds ++ [{| fn_name := "fn_" +:+ pretty idx; fn := f;
                      feature_name := feat; stateful := st |}]) (idx + 1).
Proof. apply add_fn_unnamed_append. Qed.
End BuilderMore.

Section BuilderGenerated.
Import Builder.
Context {Tensor Any : Type}.
Local Abbreviation FD := (_FunctionDescription Tensor Any).
Local Abbreviation heap := (gmap loc (obj Tensor Any)).
Implicit Types (h : heap) (fds pre post : list FD) (fd : FD) (self l : loc).
Implicit Types (f : Fn Tensor Any) (feat before : option string).
Implicit Types (calls : list (Fn Tensor Any * option string * bool)).

(** All registered names were generated with a counter below [idx]. *)
Lemma add_unnamed_from h self fds idx calls :
  builder_at h self fds idx →
  (∀ name, name ∈ names fds → ∃ j, j < idx ∧ name = generated_name j) →
  ∃ h', add_unnamed self calls h = (Return tt, h') ∧
        builder_at h' self (fds ++ imap (unnamed_fd idx) calls)
          (idx + length calls).
Proof.
  revert h fds idx. induction calls as [|c calls IH]; intros h fds idx Hb Hgen.
  - exists h. simpl. rewrite app_nil_r, Nat.add_0_r. done.
  - unfold add_unnamed. cbn [for_each]. rewrite bind_assoc.
    destruct (add_fn_unnamed_append h self fds idx c.1.1 c.1.2 c.2 Hb)
      as (h1 & Hadd & Hb1).
    { intros (j & Hj & Heq%generated_name_inj)%Hgen. lia. }
    rewrite (bind_return _ _ _ _ _ Hadd), bind_ret.
    destruct (IH h1 _ (idx + 1) Hb1) as (h2 & Hrun & Hb2).
    { intros name Hin. unfold names in Hin. rewrite map_app in Hin.
      apply elem_of_app in Hin as [Hin|Hin].
      - destruct (Hgen name Hin) as (j & Hj & ->). exists j. split; [lia|done].
      - apply list_elem_of_singleton in Hin. exists idx. split; [lia|done]. }
    exists h2. split; [exact Hrun|]. simpl.
    replace (idx + S (length calls)) with (idx + 1 + length calls) by lia.
    rewrite <- app_assoc in Hb2. simpl in Hb2.
    replace (imap (unnamed_fd idx ∘ S) calls)
      with (imap (unnamed_fd (idx + 1)) calls).
    + unfold unnamed_fd at 1. by rewrite Nat.add_0_r.
    + apply imap_ext. intros i c' _. unfold unnamed_fd. simpl.
      by replace (idx + 1 + i) with (idx + S i) by lia.
Qed.

(** X3.  On a new builder, calls of [add_fn] that give no [fn_name] and no
    [add_before_fn_name] all return; the descriptions are in the order of
    the calls, the [i]-th one named [fn_i], and the counter is the number of
    calls. *)
Theorem add_fn_generated_names h calls :
  ∃ self h',
    bind __init__ (λ self, bind (add_unnamed self calls) (λ _, ret self)) h
    = (Return self, h') ∧
    builder_at h' self (imap (unnamed_fd 0) calls) (length calls) ∧
    names (imap (unnamed_fd 0) calls)
    = (λ i, "fn_" +:+ pretty i) <$> seq 0 (length calls).
Proof.
  destruct (init_builder h) as (self & h1 & Hinit & Hb & _).
  destruct (add_unnamed_from h1 self [] 0 calls Hb) as (h2 & Hrun & Hb2).
  { intros name Hin. by apply elem_of_nil in Hin. }
  exists self, h2. split_and!.
  - rewrite (bind_return _ _ _ _ _ Hinit).
    by rewrite (bind_return _ _ _ _ _ Hrun).
  - exact Hb2.
  - unfold names. generalize 0. clear.
    induction calls as [|c calls IH]; intros n; [done|].
    simpl. f_equal.
    + unfold generated_name. by rewrite Nat.add_0_r.
    + rewrite <- IH. f_equal. apply imap_ext. intros i c' _.
      unfold unnamed_fd. simpl. by replace (n + S i) with (S n + i) by lia.
Qed.

(** X4.  [reset] never raises; it leaves the builder with no description
    and with its counter, so a name generated after a reset continues the
    numbering instead of starting again at [fn_0]. *)
Theorem reset_keeps_counter h self fds idx f feat st :
  builder_at h self fds idx →
  ∃ h1 h2,
    reset self h = (Return self, h1) ∧ builder_at h1 self [] idx ∧
    add_fn self f feat None st None h1 = (Return self, h2) ∧
    builder_at h2 self
      [{| fn_name := "fn_" +:+ pretty idx; fn := f;
          feature_name := feat; stateful := st |}] (idx + 1).
Proof.
  intros (l & Hs & Hl).
  assert (builder_at
            (<[self := ObjBuilder (fresh (dom h)) idx]>
               (<[fresh (dom h) := ObjList []]> h)) self [] idx) as Hb1
    by by eapply builder_at_rebind.
  destruct (add_fn_unnamed_append _ self [] idx f feat st Hb1)
    as (h2 & Hadd & Hb2); [apply not_elem_of_nil|].
  eexists _, h2. split_and!; [by eapply reset_run|done|done|done].
Qed.

(** X5.  [add_fn] without [fn_name] and with a non-empty
    [add_before_fn_name] that names no registered function raises
    [ValueError] and leaves the descriptions as they were, but the counter
    has been incremented: the generated name is used up.  The message is
    that of the unknown [add_before_fn_name], unless the generated name is
    itself registered, when it is that of the name that is not unique. *)
Theorem add_fn_unknown_before_uses_name h self fds idx f feat st b :
  builder_at h self fds idx → b ≠ "" → b ∉ names fds →
  ∃ h', add_fn self f feat None st (Some b) h
        = (Raise (ValueError
                    (if decide ("fn_" +:+ pretty idx ∈ names fds)
                     then msg_not_unique ("fn_" +:+ pretty idx)
                     else msg_no_add_before)), h') ∧
        builder_at h' self fds (idx + 1).
Proof.
  intros (l & Hs & Hl) Hb Hnb.
  pose proof (builder_at_counter h self l idx (idx + 1) fds Hs Hl) as Hb'.
  case_decide as Hn.
  - eexists. split; [|exact Hb'].
    by eapply add_fn_generated_name_taken.
  - rewrite (add_fn_unnamed _ _ _ _ _ _ _ _ Hs). unfold generated_name.
    destruct Hb' as (l' & Hs' & Hl').
    eexists. split; [|by exists l'].
    eapply (add_fn_named_unknown _ self l' (idx + 1) fds f feat _ st
              (Some b) b); try done.
    simpl. by rewrite decide_False.
Qed.
End BuilderGenerated.

(** ** What mutations and calls write *)

Section BuilderFrames.
Import Builder.
Context {Tensor Any : Type}.
Local Abbreviation FD := (_FunctionDescription Tensor Any).
Local Abbreviation heap := (gmap loc (obj Tensor Any)).
Implicit Types (h : heap) (fds pre post : list FD) (fd : FD) (self l c : loc).
Implicit Types (f : Fn Tensor Any) (feat before : option string).
Implicit Types (x out : gmap string Tensor) (o : obj Tensor Any).

Lemma add_fn_named_store h self l idx fds f feat name st before :
  h !! self = Some (ObjBuilder l idx) → h !! l = Some (ObjList fds) →
  ∃ fds', store (add_fn self f feat (Some name) st before h)
          = <[l := ObjList fds']> h.
Proof.
  intros Hs Hl.
  destruct (decide (name ∈ names fds)) as [Hin|Hin].
  { exists fds. erewrite add_fn_dup by done. by rewrite insert_id. }
  destruct (truthy before) as [b|] eqn:Hb.
  - destruct (decide (b ∈ names fds)) as [Hbin|Hbin].
    + apply names_elem_split in Hbin as (pre & fd & post & -> & Hpre & Hfd).
      eexists. by erewrite add_fn_named_insert.
    + exists fds. erewrite add_fn_named_unknown by done. by rewrite insert_id.
  - eexists. by erewrite add_fn_named_append.
Qed.

Lemma replace_fn_store h self l idx fds name f :
  h !! self = Some (ObjBuilder l idx) → h !! l = Some (ObjList fds) →
  ∃ fds', store (replace_fn self name f h) = <[l := ObjList fds']> h.
Proof.
  intros Hs Hl. destruct (decide (name ∈ names fds)) as [Hin|Hin].
  - apply names_elem_split in Hin as (pre & fd & post & -> & Hpre & Hfd).
    eexists. by erewrite replace_fn_known.
  - exists fds. erewrite replace_fn_unknown by done. by rewrite insert_id.
Qed.

(** After a mutation the store is the one before it, but for the builder
    and for its list, which is the old one or a new one. *)
Lemma mutate_shape h self l idx fds (m : mutation Tensor Any) :
  h !! self = Some (ObjBuilder l idx) → h !! l = Some (ObjList fds) →
  ∃ l' idx' fds',
    store (mutate self m h)
    = <[self := ObjBuilder l' idx']> (<[l' := ObjList fds']> h) ∧
    (l' = l ∨ h !! l' = None).
Proof.
  intros Hs Hl. assert (self ≠ l) as Hne by by eapply builder_ne_list.
  destruct m as [f feat [name|] st before| |name|name f]; simpl.
  - destruct (add_fn_named_store h self l idx fds f feat name st before Hs Hl)
      as [fds' ->].
    exists l, idx, fds'. split; [|by left].
    symmetry. apply insert_id. by rewrite lookup_insert_ne.
  - rewrite (add_fn_unnamed _ _ _ _ _ _ _ _ Hs).
    destruct (add_fn_named_store (<[self := ObjBuilder l (idx + 1)]> h)
                self l (idx + 1) fds f feat (generated_name idx) st before)
      as [fds' ->].
    { apply lookup_insert_eq. }
    { by rewrite lookup_insert_ne. }
    exists l, (idx + 1), fds'. split; [|by left].
    by rewrite insert_insert_ne.
  - erewrite reset_run by done. eexists _, _, _. split; [done|].
    right. apply not_elem_of_dom, is_fresh.
  - erewrite remove_fn_run by done. eexists _, _, _. split; [done|].
    right. apply not_elem_of_dom, is_fresh.
  - destruct (replace_fn_store h self l idx fds name f Hs Hl) as [fds' ->].
    exists l, idx, fds'. split; [|by left].
    symmetry. apply insert_id. by rewrite lookup_insert_ne.
Qed.

Lemma mutate_all_frame self (ms : list (mutation Tensor Any)) h l idx fds c o :
  h !! self = Some (ObjBuilder l idx) → h !! l = Some (ObjList fds) →
  c ≠ self → c ≠ l → h !! c = Some o →
  mutate_all self ms h !! c = Some o.
Proof.
  revert h l idx fds. induction ms as [|m ms IH]; intros h l idx fds Hs Hl Hcs Hcl Hc.
  - done.
  - simpl.
    destruct (mutate_shape h self l idx fds m Hs Hl)
      as (l' & idx' & fds' & -> & Hl').
    assert (c ≠ l') as Hcl'.
    { intros ->. destruct Hl' as [->|Hnone]; [done|congruence]. }
    assert (self ≠ l') as Hsl'.
    { intros <-. destruct Hl' as [->|Hnone]; [|congruence].
      by eapply (builder_ne_list h l). }
    eapply (IH _ l' idx' fds').
    + apply lookup_insert_eq.
    + rewrite lookup_insert_ne by done. apply lookup_insert_eq.
    + done.
    + done.
    + by rewrite !lookup_insert_ne.
Qed.

(** X6.  [get_summary] returns a new list with the descriptions of the
    builder and leaves the builder as it was; whatever calls of [add_fn],
    [reset], [remove_fn] and [replace_fn] follow, the returned list keeps
    its items. *)
Theorem get_summary_is_a_copy h self fds idx (ms : list (mutation Tensor Any)) :
  builder_at h self fds idx →
  ∃ c h',
    get_summary self h = (Return c, h') ∧ h !! c = None ∧
    h' !! c = Some (ObjList fds) ∧ builder_at h' self fds idx ∧
    mutate_all self ms h' !! c = Some (ObjList fds).
Proof.
  intros Hb. pose proof Hb as (l & Hs & Hl).
  assert (h !! fresh (dom h) = None) as Hfresh
    by apply not_elem_of_dom, is_fresh.
  assert (fresh (dom h) ≠ self) as Hcs by congruence.
  assert (fresh (dom h) ≠ l) as Hcl by congruence.
  exists (fresh (dom h)), (<[fresh (dom h) := ObjList fds]> h).
  split_and!.
  - by eapply get_summary_copy.
  - done.
  - apply lookup_insert_eq.
  - exists l. by rewrite !lookup_insert_ne.
  - eapply (mutate_all_frame self ms _ l idx fds); try done.
    + by rewrite lookup_insert_ne.
    + by rewrite lookup_insert_ne.
    + apply lookup_insert_eq.
Qed.

Lemma apply_fd_frame s fd out h c :
  c ≠ s → store (apply_fd s fd out h) !! c = h !! c.
Proof.
  intros Hc.
  unfold apply_fd, bind, load, lift, store_at, ret, raise, store.
  destruct (truthy (feature_name fd)) as [name|], (stateful fd).
  - destruct (out !! name) as [v|]; [|done].
    destruct (h !! s) as [[| | |d]|]; try done.
    destruct (call_feature_state (fn fd) v d) as [[y d']|e]; simpl; [|done].
    by rewrite lookup_insert_ne.
  - destruct (out !! name) as [v|]; [|done].
    by destruct (call_feature (fn fd) v).
  - destruct (h !! s) as [[| | |d]|]; try done.
    destruct (call_dict_state (fn fd) out d) as [[y d']|e]; simpl; [|done].
    by rewrite lookup_insert_ne.
  - by destruct (call_dict (fn fd) out).
Qed.

Lemma for_each_apply_fd_frame s fds out h c :
  c ≠ s → store (for_each fds (apply_fd s) out h) !! c = h !! c.
Proof.
  intros Hc. revert out h. induction fds as [|fd fds IH]; intros out h; simpl.
  - done.
  - unfold bind. pose proof (apply_fd_frame s fd out h c Hc) as Hstep.
    destruct (apply_fd s fd out h) as [[out'|e] h']; unfold store in *;
      simpl in *; [|done].
    rewrite <- Hstep. apply IH.
Qed.

(** X7.  A call of the built function changes no object of the store it is
    called in: builders, their lists, tuples and the state dictionaries of
    earlier calls are as before; its own state dictionary is a new
    object. *)
Theorem process_fn_keeps_store h self process h1 h2 x c o :
  build self h = (Return process, h1) →
  h2 !! c = Some o → store (process x h2) !! c = Some o.
Proof.
  intros (t & fds & _ & ->)%build_tuple Hc.
  assert (c ≠ fresh (dom h2)) as Hne.
  { intros ->. apply (is_fresh (dom h2)). apply elem_of_dom. eauto. }
  unfold process_fn. rewrite bind_alloc.
  unfold bind, items_of, bind, load, ret, raise.
  destruct (<[fresh (dom h2) := ObjDict ∅]> h2 !! t) as [[| | |]|];
    unfold store; simpl; try by rewrite lookup_insert_ne.
  all: change ((for_each ?a ?b ?c ?d).2) with (store (for_each a b c d)).
  all: rewrite for_each_apply_fd_frame by done; by rewrite lookup_insert_ne.
Qed.
End BuilderFrames.

(** ** What the built function computes *)

Section BuilderRuns.
Import Builder.
Context {Tensor Any : Type}.
Local Abbreviation FD := (_FunctionDescription Tensor Any).
Local Abbreviation heap := (gmap loc (obj Tensor Any)).
Implicit Types (h : heap) (fds pre post : list FD) (fd : FD) (self l c : loc).
Implicit Types (x out : gmap string Tensor).

(** X8.  The function built from a builder without descriptions returns
    the features dictionary it is given. *)
Theorem process_fn_no_steps h self idx process h1 h2 x :
  builder_at h self [] idx →
  build self h = (Return process, h1) → tuples_kept h1 h2 →
  outcome (process x h2) = Return x.
Proof.
  intros (l & Hs & Hl) Hbuild Hkept.
  rewrite (build_ok _ _ _ _ _ Hs Hl) in Hbuild. simplify_eq.
  unfold process_fn. rewrite bind_alloc.
  erewrite bind_items_of
    by (right; apply tuples_kept_fresh, Hkept, lookup_insert_eq).
  done.
Qed.

(** A step with a non-empty [feature_name] that returns has assigned to
    that key, which was in the dictionary. *)
Lemma apply_fd_feature s fd out h name out' h' :
  truthy (feature_name fd) = Some name →
  apply_fd s fd out h = (Return out', h') →
  is_Some (out !! name) ∧ ∃ y, out' = <[name := y]> out.
Proof.
  intros Hname. unfold apply_fd, bind, load, lift, store_at, ret, raise.
  rewrite Hname. destruct (stateful fd).
  - destruct (out !! name) as [v|]; [|done].
    destruct (h !! s) as [[| | |d]|]; try done.
    destruct (call_feature_state (fn fd) v d) as [[y d']|e]; [|done].
    intros [= <- <-]. eauto.
  - destruct (out !! name) as [v|]; [|done].
    destruct (call_feature (fn fd) v) as [y|e]; [|done].
    intros [= <- <-]. eauto.
Qed.

Lemma for_each_apply_fd_feature s fds out h out' h' :
  Forall (λ fd, is_Some (truthy (feature_name fd))) fds →
  for_each fds (apply_fd s) out h = (Return out', h') →
  dom out' = dom out ∧
  ∀ k, (∀ fd, fd ∈ fds → truthy (feature_name fd) ≠ Some k) →
       out' !! k = out !! k.
Proof.
  intros Hall. revert out h.
  induction Hall as [|fd fds [name Hname] _ IH]; intros out h Hrun.
  - simpl in Hrun. unfold ret in Hrun. by simplify_eq.
  - simpl in Hrun. unfold bind in Hrun.
    destruct (apply_fd s fd out h) as [[out1|e] h1] eqn:Hstep; [|done].
    destruct (apply_fd_feature _ _ _ _ _ _ _ Hname Hstep) as ([v Hv] & y & ->).
    destruct (IH _ _ Hrun) as (Hdom & Hother). split.
    + rewrite Hdom. apply dom_insert_lookup_L. eauto.
    + intros k Hk. rewrite Hother.
      * apply lookup_insert_ne. intros ->. apply (Hk fd); [by left|done].
      * intros fd' Hfd'. apply Hk. by right.
Qed.

(** X9.  When every description has a non-empty [feature_name], a call of
    the built function that returns yields a dictionary with the keys of
    its argument, and with the same value as the argument under every key
    that is the [feature_name] of no description. *)
Theorem process_fn_feature_scoped h self fds idx process h1 h2 x out :
  builder_at h self fds idx →
  Forall (λ fd, ∃ name, feature_name fd = Some name ∧ name ≠ "") fds →
  build self h = (Return process, h1) → tuples_kept h1 h2 →
  outcome (process x h2) = Return out →
  dom out = dom x ∧
  ∀ k, Some k ∉ feature_name <$> fds → out !! k = x !! k.
Proof.
  intros (l & Hs & Hl) Hall Hbuild Hkept Hrun.
  rewrite (build_ok _ _ _ _ _ Hs Hl) in Hbuild. simplify_eq.
  unfold process_fn in Hrun. rewrite bind_alloc in Hrun.
  erewrite bind_items_of in Hrun.
  2:{ right. apply tuples_kept_fresh, Hkept, lookup_insert_eq. }
  unfold outcome in Hrun.
  destruct (for_each fds _ x _) as [r h'] eqn:Hfor. simpl in Hrun. subst r.
  eapply for_each_apply_fd_feature in Hfor as [Hdom Hother].
  - split; [done|]. intros k Hk. apply Hother. intros fd Hfd Ht.
    apply Hk. apply list_elem_of_fmap. exists fd. split; [|done].
    unfold truthy in Ht. destruct (feature_name fd) as [n|]; [|done].
    case_decide; by simplify_eq.
  - eapply Forall_impl; [exact Hall|]. intros fd (name & -> & Hne).
    simpl. rewrite decide_False by done. eauto.
Qed.
End BuilderRuns.

(** ** Registering and evaluating filters *)

Section FilterMore.
Import FilterBuilder.
Context {Tensor : Type}.
Local Abbreviation FeaturesDict := (gmap string Tensor).
Local Abbreviation t := (FilterBuilder.t Tensor).
Local Abbreviation FilterFn := (FilterBuilder.FilterFn Tensor).
Implicit Types (s : t) (phase : Phase) (fn : FilterFn) (fns : list FilterFn).
Implicit Types (x : FeaturesDict).

(** X10.  On a new filter builder, calls of [add_filter_fn] never raise,
    and afterwards every phase holds the functions that were registered for
    it, in the order of their registration, and no other. *)
Theorem add_filter_fn_by_phase (rs : list (FilterFn * Phase)) :
  ∃ s', add_all rs __init__ = (Return tt, s') ∧
        ∀ phase,
          _filter_fns s' !! phase
          = Some (filter (λ r, r.2 = phase) rs).*1.
Proof.
  destruct (add_all_appends rs __init__) as (s' & Hrun & Hs').
  { intros ph. rewrite init_filter_fns. eauto. }
  exists s'. split; [done|]. intros phase.
  by rewrite Hs', init_filter_fns.
Qed.

Lemma filter_loop_returns {S} fns x keep (s : S) :
  Forall (λ fn, ∃ b, fn x = Return b) fns →
  ∃ keep',
    for_each fns (λ fn keep, b <- lift (fn x) ;; ret (keep && b)) keep s
    = (Return keep', s).
Proof.
  intros Hall. revert keep.
  induction Hall as [|fn fns [b Hb] _ IH]; intros keep; simpl.
  - by exists keep.
  - rewrite bind_assoc, Hb, bind_lift_return, bind_ret. apply IH.
Qed.

(** X11.  The built filter calls every function, also after one of them
    has yielded [False]: when the functions before [fn] return and [fn]
    raises, the filter raises the exception of [fn]. *)
Theorem filter_fn_calls_all {S} fns1 fn fns2 x e (s : S) :
  Forall (λ fn, ∃ b, fn x = Return b) fns1 → fn x = Raise e →
  filter_fn (fns1 ++ fn :: fns2) x s = (Raise e, s).
Proof.
  intros Hall Hfn. unfold filter_fn. rewrite for_each_app.
  destruct (filter_loop_returns fns1 x true s Hall) as [keep Hrun].
  rewrite (bind_return _ _ _ _ _ Hrun). simpl.
  by rewrite bind_assoc, Hfn, bind_lift_raise.
Qed.
End FilterMore.

Section FilterMoreExamples.
Import Examples.

Lemma filter_fn_calls_all_witness :
  FilterBuilder.filter_fn
    ([FilterBuilder.pure_fn (λ _ : gmap string Z, false)]
       ++ (λ _, Raise (Exception "boom")) :: [FilterBuilder.pure_fn positive_n])
    {["n" := 3%Z]} tt
  = (Raise (Exception "boom"), tt).
Proof.
  apply (filter_fn_calls_all
           [FilterBuilder.pure_fn (λ _ : gmap string Z, false)]
           (λ _, Raise (Exception "boom"))
           [FilterBuilder.pure_fn positive_n] {["n" := 3%Z]}
           (Exception "boom") tt).
  - apply Forall_singleton. by exists false.
  - reflexivity.
Defined.
End FilterMoreExamples.

(** ** The schema that [parse_feature] maintains *)

Section ParserSchema.
Context {FeatureType : Type} `{!EqDecision FeatureType}.
Local Abbreviation E := (ExampleParserBuilder.t FeatureType).
Local Abbreviation Q := (SequenceExampleParserBuilder.t FeatureType).

(** X12.  For both parser builders, whatever calls of [parse_feature] were
    made, the types and the output names are recorded for the same
    features, every feature has at least one output name and none twice,
    and no output name belongs to two features. *)
Theorem parse_feature_keeps_schema :
  (∀ s : E,
     ExampleParserBuilder.reachable s →
     schema_ok (ExampleParserBuilder._features s)
       (ExampleParserBuilder._name_dict s)) ∧
  (∀ s : Q,
     SequenceExampleParserBuilder.reachable s →
     schema_ok (SequenceExampleParserBuilder._features s)
       (SequenceExampleParserBuilder._name_dict s)).
Proof.
  split.
  - induction 1 as [|s k ty out Hreach IH]; [apply schema_ok_empty|].
    destruct (parse_feature_cases s k ty out) as [[msg ->]|(Hreg & _ & ->)];
      [done|].
    unfold store. simpl. apply schema_ok_insert; [done|].
    intros k' l Hk' Ho. apply Hreg. by exists k', l.
  - induction 1 as [|s k ty out c Hreach IH]; [apply schema_ok_empty|].
    destruct (seq_parse_feature_cases s k ty out c)
      as [[msg ->]|(Hreg & _ & ->)]; [done|].
    unfold store. simpl. apply schema_ok_insert; [done|].
    intros k' l Hk' Ho. apply Hreg. by exists k', l.
Qed.

(** X13.  For both parser builders, [parse_feature] with an output name
    that is not registered, for a feature that has no type yet or has the
    given type, returns: the feature has the type, its list of output names
    is the one before (empty for a new feature) followed by the new name,
    and the entries of all other features are as before. *)
Theorem parse_feature_registers :
  (∀ (s : E) k ty out,
     ¬ ExampleParserBuilder.registered s (or_else out k) →
     (∀ ty', ExampleParserBuilder._features s !! k = Some ty' → ty' = ty) →
     ∃ s',
       ExampleParserBuilder.parse_feature k ty out s = (Return tt, s') ∧
       ExampleParserBuilder._features s' !! k = Some ty ∧
       ExampleParserBuilder._name_dict s' !! k
       = Some (default [] (ExampleParserBuilder._name_dict s !! k)
                 ++ [or_else out k]) ∧
       ∀ k', k' ≠ k →
         ExampleParserBuilder._features s' !! k'
         = ExampleParserBuilder._features s !! k' ∧
         ExampleParserBuilder._name_dict s' !! k'
         = ExampleParserBuilder._name_dict s !! k') ∧
  (∀ (s : Q) k ty out c,
     ¬ SequenceExampleParserBuilder.registered s (or_else out k) →
     (∀ ty', SequenceExampleParserBuilder._features s !! (k, c) = Some ty' →
             ty' = ty) →
     ∃ s',
       SequenceExampleParserBuilder.parse_feature k ty out c s
       = (Return tt, s') ∧
       SequenceExampleParserBuilder._features s' !! (k, c) = Some ty ∧
       SequenceExampleParserBuilder._name_dict s' !! (k, c)
       = Some (default [] (SequenceExampleParserBuilder._name_dict s !! (k, c))
                 ++ [or_else out k]) ∧
       ∀ key, key ≠ (k, c) →
         SequenceExampleParserBuilder._features s' !! key
         = SequenceExampleParserBuilder._features s !! key ∧
         SequenceExampleParserBuilder._name_dict s' !! key
         = SequenceExampleParserBuilder._name_dict s !! key).
Proof.
  split.
  - intros s k ty out Hreg Hty. eexists. split_and!.
    + by apply parse_feature_returns.
    + apply lookup_insert_eq.
    + apply lookup_insert_eq.
    + intros k' Hne. simpl. by rewrite !lookup_insert_ne.
  - intros s k ty out c Hreg Hty. eexists. split_and!.
    + by apply seq_parse_feature_returns.
    + apply lookup_insert_eq.
    + apply lookup_insert_eq.
    + intros k' Hne. simpl. by rewrite !lookup_insert_ne.
Qed.
End ParserSchema.

(** ** Where the parsed features go *)

Section LoopsReturning.
Context {S A B : Type}.

(** What the body of a loop keeps whenever it returns holds when the loop
    returns. *)
Lemma for_each_returns (I : B → S → Prop) (xs : list A)
    (body : A → B → M S B) acc s b s' :
  (∀ x a s0 a' s1,
     x ∈ xs → body x a s0 = (Return a', s1) → I a s0 → I a' s1) →
  I acc s → for_each xs body acc s = (Return b, s') → I b s'.
Proof.
  revert acc s. induction xs as [|x xs IH]; intros acc s Hbody Hacc Hrun.
  - simpl in Hrun. unfold ret in Hrun. by simplify_eq.
  - simpl in Hrun. unfold bind in Hrun.
    destruct (body x acc s) as [[a'|e] s1] eqn:Hx; [|done].
    eapply IH; [|eapply Hbody; [by left|exact Hx|exact Hacc]|exact Hrun].
    intros y a s0 a'' s2 Hy. apply Hbody. by right.
Qed.
End LoopsReturning.

Section ExampleParserOutput.
Import ExampleParserBuilder.
Context {Tensor FeatureType : Type} `{!EqDecision FeatureType}.
Variable parse_single_example :
  Tensor → gmap string FeatureType → result (list (string * Tensor)).
Variable identity : Tensor → Tensor.
Local Abbreviation t := (ExampleParserBuilder.t FeatureType).
Implicit Types (self s : t) (k o : string) (v raw : Tensor).
Implicit Types (output : gmap string Tensor).

(** X14.  When the parse function of the [tf.train.Example] builder
    returns, the instance is as before, and every entry of the returned
    dictionary is [tf.identity] of the parsed value of a feature, under one
    of the output names of that feature. *)
Theorem parse_fn_output_provenance s raw output s' :
  _parse_fn parse_single_example identity raw s = (Return output, s') →
  s' = s ∧
  ∃ parsed,
    parse_single_example raw (_features s) = Return parsed ∧
    ∀ o v, output !! o = Some v →
      ∃ k v0 names,
        (k, v0) ∈ parsed ∧ _name_dict s !! k = Some names ∧ o ∈ names ∧
        v = identity v0.
Proof.
  unfold _parse_fn. rewrite bind_get.
  destruct (parse_single_example raw (_features s)) as [parsed|e]; [|done].
  rewrite bind_lift_return. intros Hrun.
  eapply (for_each_returns
            (λ a s0, s0 = s ∧
               ∀ o v, a !! o = Some v →
                 ∃ k v0 names,
                   (k, v0) ∈ parsed ∧ _name_dict s !! k = Some names ∧
                   o ∈ names ∧ v = identity v0)) in Hrun.
  - destruct Hrun as [-> Hout]. split; [done|]. by exists parsed.
  - intros [k v0] a s0 a' s1 Hin Hbody [-> Ha].
    rewrite bind_get in Hbody. simpl in Hbody.
    destruct (_name_dict s !! k) as [names|] eqn:Hk; [|done].
    destruct (rename_loop (identity v0) names a s) as (a'' & Hloop & Hlook).
    rewrite Hloop in Hbody. simplify_eq. split; [done|].
    intros o v. rewrite Hlook. destruct (decide (o ∈ names)) as [Ho|Ho].
    + intros [= <-]. by exists k, v0, names.
    + apply Ha.
  - split; [done|]. intros o v Ho. by rewrite lookup_empty in Ho.
Qed.

(** X16.  [build] returns the bound method and not a copy of the schema: a
    feature registered after [build] is parsed by the function that was
    built before, which binds the new output name to [tf.identity] of the
    parsed value. *)
Theorem build_reads_schema_at_call s k ty out raw parsed v :
  reachable s →
  ¬ registered s (or_else out k) →
  (∀ ty', _features s !! k = Some ty' → ty' = ty) →
  parse_single_example raw (_features (store (parse_feature k ty out s)))
  = Return parsed →
  NoDup parsed.*1 →
  (∀ k', k' ∈ parsed.*1 →
         is_Some (_features (store (parse_feature k ty out s)) !! k')) →
  (k, v) ∈ parsed →
  ∃ output,
    (parse_fn <- build parse_single_example identity ;;
     parse_feature k ty out ;;
     parse_fn raw) s
    = (Return output, store (parse_feature k ty out s)) ∧
    output !! or_else out k = Some (identity v).
Proof.
  intros Hreach Hreg Hty Hparse Hnd Hkeys Hkv.
  assert (reachable (store (parse_feature k ty out s))) as Hreach'
    by by apply reachable_parse_feature.
  apply reachable_consistent in Hreach'.
  pose proof (parse_feature_returns s k ty out Hreg Hty) as Hrun.
  unfold build. rewrite bind_ret, (bind_return _ _ _ _ _ Hrun).
  rewrite Hrun in *. unfold store in *. cbn [snd] in *.
  eapply parse_fn_fan_out; try done.
  - simpl. apply lookup_insert_eq.
  - apply elem_of_app. right. by left.
Qed.
End ExampleParserOutput.

Section SequenceFeatures.
Import SequenceExampleParserBuilder.
Context {FeatureType : Type}.

(** X15.  The dictionary that the parse function of the
    [tf.train.SequenceExample] builder passes to TensorFlow for the context
    (for the feature lists) has, under each name, the type of the feature
    registered under that name with [is_context] true (false). *)
Theorem features_with_lookup (context : bool)
    (features : gmap (string * bool) FeatureType) (name : string) :
  features_with context features !! name = features !! (name, context).
Proof.
  apply option_eq. intros ty. unfold features_with.
  assert (∀ ty0,
            (name, ty0)
            ∈ omap (λ kt : string * bool * FeatureType,
                      if decide (kt.1.2 = context) then Some (kt.1.1, kt.2)
                      else None) (map_to_list features)
            ↔ features !! (name, context) = Some ty0) as Hin.
  { intros ty0. rewrite list_elem_of_omap. split.
    - intros ([[n c] ty'] & Hkt & Hf). simpl in Hf.
      case_decide; simplify_eq. by apply elem_of_map_to_list.
    - intros Hf. exists ((name, context), ty0). split.
      + by apply elem_of_map_to_list.
      + simpl. by rewrite decide_True. }
  rewrite <- Hin. symmetry. apply elem_of_list_to_map'.
  intros ty' H1 H2. apply Hin in H1. apply Hin in H2. congruence.
Qed.
End SequenceFeatures.

Section SequenceParserOutput.
Import SequenceExampleParserBuilder.
Context {Tensor FeatureType : Type} `{!EqDecision FeatureType}.
Variable parse_single_sequence_example :
  Tensor → gmap string FeatureType → gmap string FeatureType →
  result (list (string * Tensor) * list (string * Tensor)).
Variable identity : Tensor → Tensor.
Local Abbreviation t := (SequenceExampleParserBuilder.t FeatureType).
Implicit Types (self s : t) (k o : string) (c context : bool).
Implicit Types (v raw : Tensor) (output : gmap string Tensor).
Implicit Types (items : list (string * Tensor)).

Lemma rename_features_returns s context items output output' s'
    (P : string → Tensor → Prop) :
  rename_features identity context items output s = (Return output', s') →
  (∀ o v, output !! o = Some v → P o v) →
  (∀ k v0 names o,
     (k, v0) ∈ items → _name_dict s !! (k, context) = Some names →
     o ∈ names → P o (identity v0)) →
  s' = s ∧ ∀ o v, output' !! o = Some v → P o v.
Proof.
  intros Hrun Hout Hnew. unfold rename_features in Hrun.
  eapply (for_each_returns
            (λ a s0, s0 = s ∧ ∀ o v, a !! o = Some v → P o v)) in Hrun;
    [done| |done].
  intros [k v0] a s0 a' s1 Hin Hbody [-> Ha].
  rewrite bind_get in Hbody. simpl in Hbody.
  destruct (_name_dict s !! (k, context)) as [names|] eqn:Hk; [|done].
  destruct (rename_loop (identity v0) names a s) as (a'' & Hloop & Hlook).
  rewrite Hloop in Hbody. simplify_eq. split; [done|].
  intros o v. rewrite Hlook. destruct (decide (o ∈ names)) as [Ho|Ho].
  - intros [= <-]. by eapply Hnew.
  - apply Ha.
Qed.

(** X17.  When the parse function of the [tf.train.SequenceExample]
    builder returns, the instance is as before, and every entry of the
    returned dictionary is [tf.identity] of a value parsed from the context
    or from the feature lists, under one of the output names registered for
    that feature with that [is_context]. *)
Theorem seq_parse_fn_output_provenance s raw output s' :
  _parse_fn parse_single_sequence_example identity raw s
  = (Return output, s') →
  s' = s ∧
  ∃ parsed_context parsed_sequence,
    parse_single_sequence_example raw
      (features_with true (_features s)) (features_with false (_features s))
    = Return (parsed_context, parsed_sequence) ∧
    ∀ o v, output !! o = Some v →
      ∃ k (c : bool) v0 names,
        (k, v0) ∈ (if c then parsed_context else parsed_sequence) ∧
        _name_dict s !! (k, c) = Some names ∧ o ∈ names ∧ v = identity v0.
Proof.
  unfold _parse_fn. rewrite bind_get. lazy zeta.
  destruct (parse_single_sequence_example raw _ _) as [[pc ps]|e]; [|done].
  rewrite bind_lift_return. cbn [for_each fst snd]. intros Hrun.
  unfold bind at 1 in Hrun.
  destruct (rename_features identity true pc ∅ s) as [[b1|e] s1] eqn:H1;
    [|done].
  unfold bind at 1 in Hrun.
  destruct (rename_features identity false ps b1 s1) as [[b2|e] s2] eqn:H2;
    [|done].
  unfold ret in Hrun. simplify_eq.
  eapply (rename_features_returns _ _ _ _ _ _
            (λ o v, ∃ k (c : bool) v0 names,
               (k, v0) ∈ (if c then pc else ps) ∧
               _name_dict s !! (k, c) = Some names ∧ o ∈ names ∧
               v = identity v0)) in H1 as [-> Hb1].
  - eapply (rename_features_returns _ _ _ _ _ _
              (λ o v, ∃ k (c : bool) v0 names,
                 (k, v0) ∈ (if c then pc else ps) ∧
                 _name_dict s !! (k, c) = Some names ∧ o ∈ names ∧
                 v = identity v0)) in H2 as [-> Hb2].
    + split; [done|]. by exists pc, ps.
    + done.
    + intros k v0 names o Hin Hk Ho. by exists k, false, v0, names.
  - intros o v Ho. by rewrite lookup_empty in Ho.
  - intros k v0 names o Hin Hk Ho. by exists k, true, v0, names.
Qed.
End SequenceParserOutput.

(** ** The further properties on samples *)

Section MoreExamples.
Import Builder Examples.

Lemma remove_fn_removes_witness :
  ∃ h' fds',
    remove_fn self0 "B"
      (with_steps [("A", double); ("B", add_one); ("C", double)])
    = (Return self0, h') ∧
    builder_at h' self0 fds' 0 ∧
    fds' = filter (λ fd, fn_name fd ≠ "B")
             [step "A" double; step "B" add_one; step "C" double] ∧
    ("B" ∉ names fds') ∧
    ("B" ∉ names [step "A" double; step "B" add_one; step "C" double] →
     fds' = [step "A" double; step "B" add_one; step "C" double]).
Proof.
  apply (remove_fn_removes
           (with_steps [("A", double); ("B", add_one); ("C", double)])
           self0 [step "A" double; step "B" add_one; step "C" double] 0 "B").
  exists 1%positive. split; vm_compute; reflexivity.
Defined.

Lemma add_fn_generates_name_witness :
  ∃ h', add_fn self0 add_one (Some "n") None false None
          (with_steps [("A", double)])
        = (Return self0, h') ∧
        builder_at h' self0
          ([step "A" double]
             ++ [{| fn_name := "fn_" +:+ pretty 0; fn := add_one;
                    feature_name := Some "n"; stateful := false |}]) (0 + 1).
Proof.
  apply (add_fn_generates_name (with_steps [("A", double)]) self0
           [step "A" double] 0 add_one (Some "n") false).
  - exists 1%positive. split; vm_compute; reflexivity.
  - apply (bool_decide_unpack _). vm_compute. exact I.
Defined.

Lemma reset_keeps_counter_witness :
  ∃ h1 h2,
    reset self0 stateful_pair = (Return self0, h1) ∧
    builder_at h1 self0 [] 2 ∧
    add_fn self0 double (Some "n") None false None h1 = (Return self0, h2) ∧
    builder_at h2 self0
      [{| fn_name := "fn_" +:+ pretty 2; fn := double;
          feature_name := Some "n"; stateful := false |}] (2 + 1).
Proof.
  apply (reset_keeps_counter stateful_pair self0
           [{| fn_name := "fn_0"; fn := write_k; feature_name := Some "n";
               stateful := true |};
            {| fn_name := "fn_1"; fn := read_k; feature_name := None;
               stateful := true |}] 2 double (Some "n") false).
  exists 1%positive. split; vm_compute; reflexivity.
Defined.

Lemma add_fn_unknown_before_uses_name_witness :
  ∃ h', add_fn self0 add_one (Some "n") None false (Some "Z")
          (with_steps [("A", double)])
        = (Raise (ValueError
                    (if decide ("fn_" +:+ pretty 0 ∈ names [step "A" double])
                     then msg_not_unique ("fn_" +:+ pretty 0)
                     else msg_no_add_before)), h') ∧
        builder_at h' self0 [step "A" double] (0 + 1).
Proof.
  apply (add_fn_unknown_before_uses_name (with_steps [("A", double)]) self0
           [step "A" double] 0 add_one (Some "n") false "Z").
  - exists 1%positive. split; vm_compute; reflexivity.
  - discriminate.
  - apply (bool_decide_unpack _). vm_compute. exact I.
Defined.

Lemma get_summary_is_a_copy_witness :
  ∃ c h',
    get_summary self0 (with_steps [("A", double); ("B", add_one)])
    = (Return c, h') ∧
    with_steps [("A", double); ("B", add_one)] !! c = None ∧
    h' !! c = Some (ObjList [step "A" double; step "B" add_one]) ∧
    builder_at h' self0 [step "A" double; step "B" add_one] 0 ∧
    mutate_all self0
      [Replace_fn "A" add_one; Remove_fn "B";
       Add_fn double None None false None; Reset] h' !! c
    = Some (ObjList [step "A" double; step "B" add_one]).
Proof.
  apply (get_summary_is_a_copy
           (with_steps [("A", double); ("B", add_one)]) self0
           [step "A" double; step "B" add_one] 0).
  exists 1%positive. split; vm_compute; reflexivity.
Defined.

Lemma process_fn_keeps_store_witness :
  store (process_fn 3%positive {["n" := 1%Z]}
           (store (build self0 stateful_pair))) !! self0
  = Some (ObjBuilder 1%positive 2).
Proof.
  apply (process_fn_keeps_store stateful_pair self0 (process_fn 3%positive)
           (store (build self0 stateful_pair))
           (store (build self0 stateful_pair)) {["n" := 1%Z]} self0
           (ObjBuilder 1%positive 2)).
  - vm_compute. reflexivity.
  - vm_compute. reflexivity.
Defined.

Lemma process_fn_no_steps_witness :
  outcome (process_fn 3%positive {["n" := 3%Z]} (store (build self0 h0)))
  = Return {["n" := 3%Z]}.
Proof.
  apply (process_fn_no_steps h0 self0 0 (process_fn 3%positive)
           (store (build self0 h0)) (store (build self0 h0)) {["n" := 3%Z]}).
  - exists 1%positive. split; vm_compute; reflexivity.
  - vm_compute. reflexivity.
  - apply tuples_kept_refl.
Defined.

Lemma process_fn_feature_scoped_witness :
  dom (<["n" := 7%Z]> ({["m" := 5%Z]} : gmap string Z))
  = dom (<["n" := 3%Z]> ({["m" := 5%Z]} : gmap string Z)) ∧
  ∀ k, Some k ∉ feature_name
                  <$> [step "double" double; step "add_one" add_one] →
       <["n" := 7%Z]> ({["m" := 5%Z]} : gmap string Z) !! k
       = <["n" := 3%Z]> ({["m" := 5%Z]} : gmap string Z) !! k.
Proof.
  apply (process_fn_feature_scoped
           (with_steps [("double", double); ("add_one", add_one)]) self0
           [step "double" double; step "add_one" add_one] 0
           (process_fn 3%positive)
           (store (build self0
                     (with_steps [("double", double); ("add_one", add_one)])))
           (store (build self0
                     (with_steps [("double", double); ("add_one", add_one)])))).
  - exists 1%positive. split; vm_compute; reflexivity.
  - repeat constructor; exists "n"; (split; [reflexivity|discriminate]).
  - vm_compute. reflexivity.
  - apply tuples_kept_refl.
  - vm_compute. reflexivity.
Defined.

Lemma parse_feature_keeps_schema_witness :
  schema_ok (ExampleParserBuilder._features example_a_x)
    (ExampleParserBuilder._name_dict example_a_x).
Proof.
  apply (proj1 parse_feature_keeps_schema example_a_x).
  apply ExampleParserBuilder.reachable_parse_feature.
  apply ExampleParserBuilder.reachable_init.
Defined.

Lemma parse_feature_registers_witness :
  ∃ s',
    ExampleParserBuilder.parse_feature "a" VarLenFeature (Some "y") example_a_x
    = (Return tt, s') ∧
    ExampleParserBuilder._features s' !! "a" = Some VarLenFeature ∧
    ExampleParserBuilder._name_dict s' !! "a"
    = Some (default [] (ExampleParserBuilder._name_dict example_a_x !! "a")
              ++ [or_else (Some "y") "a"]) ∧
    ∀ k', k' ≠ "a" →
      ExampleParserBuilder._features s' !! k'
      = ExampleParserBuilder._features example_a_x !! k' ∧
      ExampleParserBuilder._name_dict s' !! k'
      = ExampleParserBuilder._name_dict example_a_x !! k'.
Proof.
  apply (proj1 parse_feature_registers example_a_x "a" VarLenFeature
           (Some "y")).
  - rewrite <- registered_values.
    apply (bool_decide_unpack _). vm_compute. exact I.
  - intros ty'. vm_compute. intros Heq. injection Heq as <-. reflexivity.
Defined.

Lemma parse_fn_output_provenance_witness :
  example_a_x = example_a_x ∧
  ∃ parsed,
    parse_single_example 7%Z (ExampleParserBuilder._features example_a_x)
    = Return parsed ∧
    ∀ o v, ({["x" := 7%Z]} : gmap string Z) !! o = Some v →
      ∃ k v0 names,
        (k, v0) ∈ parsed ∧
        ExampleParserBuilder._name_dict example_a_x !! k = Some names ∧
        o ∈ names ∧ v = identity v0.
Proof.
  apply (parse_fn_output_provenance parse_single_example identity
           example_a_x 7%Z {["x" := 7%Z]} example_a_x).
  vm_compute. reflexivity.
Defined.

Lemma build_reads_schema_at_call_witness :
  ∃ output,
    (parse_fn <- ExampleParserBuilder.build parse_single_example identity ;;
     ExampleParserBuilder.parse_feature "a" VarLenFeature (Some "y") ;;
     parse_fn 7%Z) example_a_x
    = (Return output,
       store (ExampleParserBuilder.parse_feature "a" VarLenFeature (Some "y")
                example_a_x)) ∧
    output !! or_else (Some "y") "a" = Some (identity 7%Z).
Proof.
  apply (build_reads_schema_at_call parse_single_example identity
           example_a_x "a" VarLenFeature (Some "y") 7%Z [("a", 7%Z)] 7%Z).
  - apply ExampleParserBuilder.reachable_parse_feature.
    apply ExampleParserBuilder.reachable_init.
  - rewrite <- registered_values.
    apply (bool_decide_unpack _). vm_compute. exact I.
  - intros ty'. vm_compute. intros Heq. injection Heq as <-. reflexivity.
  - vm_compute. reflexivity.
  - apply NoDup_singleton.
  - intros k' Hk'. apply list_elem_of_singleton in Hk'. rewrite Hk'.
    exists VarLenFeature. vm_compute. reflexivity.
  - left.
Defined.

Lemma seq_parse_fn_output_provenance_witness :
  sequence_a_x = sequence_a_x ∧
  ∃ parsed_context parsed_sequence,
    parse_single_sequence_example 7%Z
      (SequenceExampleParserBuilder.features_with true
         (SequenceExampleParserBuilder._features sequence_a_x))
      (SequenceExampleParserBuilder.features_with false
         (SequenceExampleParserBuilder._features sequence_a_x))
    = Return (parsed_context, parsed_sequence) ∧
    ∀ o v, ({["x" := 7%Z]} : gmap string Z) !! o = Some v →
      ∃ k (c : bool) v0 names,
        (k, v0) ∈ (if c then parsed_context else parsed_sequence) ∧
        SequenceExampleParserBuilder._name_dict sequence_a_x !! (k, c)
        = Some names ∧
        o ∈ names ∧ v = identity v0.
Proof.
  apply (seq_parse_fn_output_provenance parse_single_sequence_example identity
           sequence_a_x 7%Z {["x" := 7%Z]} sequence_a_x).
  vm_compute. reflexivity.
Defined.
End MoreExamples.
